(** * A document ingestion and retrieval pipeline, embedded in Rocq

    The program under study is the FastAPI service of [main.py]: [upload]
    saves a file, deletes the chunks stored under its name, turns it into
    text ([process_doc]), splits the text into overlapping chunks, links
    every chunk to its neighbours and inserts the records into a vector
    store; [search] reshapes what the store returns for a query.

    Python values are embedded as follows.
    - A [str] is a list of Unicode code points ([text]); [len] is [length].
    - An [int] is a [Z].
    - A [dict] with string keys is a [gmap string value].
    - A raised exception is the [Raise] outcome of a [result].
    - The vector store, what the readers of the external libraries see in
      an uploaded file, and the store's answer to a query are explicit data
      that the handlers take and return.

    [delete_all] and [setup_weaviate_schema] manage the collection itself
    and run on the collections of the cluster (module [Admin]).  The first
    part of the file holds the definitions, the second part the properties
    and their proofs. *)

From stdpp Require Import gmap strings list fin_maps pretty.
From Stdlib Require Import ZArith.

Local Open Scope Z_scope.

(** ** Python strings *)

(** A character is a Unicode code point. *)
Definition char := N.
Definition newline : char := 10%N.
Definition space : char := 32%N.
Definition quote : char := 34%N.
Abbreviation text := (list N).

(** [str "abc"] is the Python literal ["abc"] (ASCII literals only). *)
Definition str (s : string) : text := Ascii.N_of_ascii <$> String.list_ascii_of_string s.

(** [len(x)] as a Python [int]. *)
Definition len {A} (l : list A) : Z := Z.of_nat (length l).

(** [a == b] on strings. *)
Definition text_eqb (a b : text) : bool := bool_decide (a = b).

(** [t.startswith(p)]. *)
Fixpoint startswith (p t : text) : bool :=
  match p, t with
  | [], _ => true
  | _ :: _, [] => false
  | a :: p', b :: t' => bool_decide (a = b) && startswith p' t'
  end.

(** [p in t] for strings: [p] occurs as a substring of [t].  For a literal
    pattern this is also [re.search(re.escape(p), t)]. *)
Fixpoint contains (p t : text) : bool :=
  startswith p t ||
  match t with
  | [] => false
  | _ :: t' => contains p t'
  end.

(** [sep.join(parts)]. *)
Fixpoint join (sep : text) (parts : list text) : text :=
  match parts with
  | [] => []
  | [p] => p
  | p :: rest => p ++ sep ++ join sep rest
  end.

(** [str.isspace] on one character: the code points Python treats as
    white space. *)
Definition isspace (c : char) : bool :=
  let c := Z.of_N c in
  ((9 <=? c) && (c <=? 13)) || ((28 <=? c) && (c <=? 32))
  || (c =? 133) || (c =? 160) || (c =? 5760)
  || ((8192 <=? c) && (c <=? 8202))
  || (c =? 8232) || (c =? 8233) || (c =? 8239) || (c =? 8287) || (c =? 12288).

Fixpoint lstrip (t : text) : text :=
  match t with
  | [] => []
  | c :: t' => if isspace c then lstrip t' else t
  end.

Definition rstrip (t : text) : text := reverse (lstrip (reverse t)).

(** [t.strip()]. *)
Definition strip (t : text) : text := rstrip (lstrip t).

(** [t.split(sep)] for a one-character separator: the pieces between the
    occurrences of [sep]; never empty as a list. *)
Fixpoint split_char (sep : char) (t : text) : list text :=
  match t with
  | [] => [[]]
  | c :: t' =>
      if bool_decide (c = sep) then [] :: split_char sep t'
      else match split_char sep t' with
           | [] => [[c]]
           | p :: ps => (c :: p) :: ps
           end
  end.

(** ** Exceptions *)

Inductive exn :=
  | IndexError
  | KeyError (key : string)
  | JSONDecodeError
  | UnicodeDecodeError
  | ExtractorError
  | HTTPException (status_code : Z) (detail : text).

(** The outcome of a Python call: a value, or a raised exception.  The
    third outcome, [Unmodelled], marks a call that leaves the part of
    Python this development covers (it arises only from floating-point
    numbers in JSON input); nothing is claimed about such a call. *)
Inductive result (A : Type) :=
  | Ok (a : A)
  | Raise (e : exn)
  | Unmodelled.
Arguments Ok {A} a.
Arguments Raise {A} e.
Arguments Unmodelled {A}.

Global Instance result_ret : MRet result := λ A a, Ok a.
Global Instance result_bind : MBind result := λ A B f m,
  match m with
  | Ok a => f a
  | Raise e => Raise e
  | Unmodelled => Unmodelled
  end.

(** [for x in l: s = body(s, x)], stopping at the first exception. *)
Fixpoint for_each {A S} (body : S → A → result S) (s : S) (l : list A) : result S :=
  match l with
  | [] => Ok s
  | x :: l' => s' ← body s x; for_each body s' l'
  end.

(** [for i, x in enumerate(l): s = body(s, i, x)], counting from [i]. *)
Fixpoint for_enumerate {A S} (body : S → Z → A → result S) (i : Z) (s : S) (l : list A)
    : result S :=
  match l with
  | [] => Ok s
  | x :: l' => s' ← body s i x; for_enumerate body (i + 1) s' l'
  end.

(** [l[i]] for a Python list: negative indices count from the end, and an
    index out of range raises [IndexError]. *)
Definition getitem {A} (l : list A) (i : Z) : result A :=
  let j := if i <? 0 then i + len l else i in
  if j <? 0 then Raise IndexError
  else match l !! Z.to_nat j with
       | Some x => Ok x
       | None => Raise IndexError
       end.

(** ** The text splitter

    Modelled from the spec: [RecursiveCharacterTextSplitter] is imported
    from the [langchain] package, whose code is not part of [main.py].  The
    spec calls it the standard recursive character splitter: separators
    tried from coarse to fine (paragraph break, line break, space, single
    characters), pieces merged back into chunks of at most [chunk_size]
    characters that share up to [chunk_overlap] characters, the separator
    kept at the start of the piece that follows it, and every chunk
    stripped of surrounding white space.  The definitions below follow that
    library's [_split_text_with_regex], [_join_docs], [_merge_splits] and
    [_split_text], with the options [process_doc] leaves at their defaults
    ([keep_separator=True], [strip_whitespace=True], literal separators). *)

Module Splitter.

(** [re.split("(" + re.escape(sep) + ")", t)] for a non-empty [sep]: the
    text between the matches, with every match listed between its
    neighbours.  [skip] counts the characters of the current match still to
    pass over; [cur] is the text since the last match. *)
Fixpoint re_split_scan (sep : text) (skip : nat) (cur t : text) : list text :=
  match t with
  | [] => [cur]
  | c :: t' =>
      match skip with
      | S k => re_split_scan sep k cur t'
      | O =>
          if startswith sep t
          then cur :: sep :: re_split_scan sep (Nat.pred (length sep)) [] t'
          else re_split_scan sep 0 (cur ++ [c]) t'
      end
  end.

Definition re_split (sep t : text) : list text := re_split_scan sep 0 [] t.

(** [[_splits[i] + _splits[i + 1] for i in range(1, len(_splits), 2)]],
    given [_splits[1:]]. *)
Fixpoint pair_up (l : list text) : result (list text) :=
  match l with
  | [] => Ok []
  | [_] => Raise IndexError
  | a :: b :: l' => rest ← pair_up l'; Ok ((a ++ b) :: rest)
  end.

(** [l[-1:]]. *)
Definition last_slice {A} (l : list A) : list A :=
  match last l with
  | Some x => [x]
  | None => []
  end.

Definition _split_text_with_regex (t separator : text) : result (list text) :=
  splits ←
    (if bool_decide (separator ≠ []) then
       let _splits := re_split separator t in
       splits ← pair_up (tail _splits);
       let splits :=
         if len _splits mod 2 =? 0 then splits ++ last_slice _splits else splits in
       first ← getitem _splits 0;
       Ok (first :: splits)
     else Ok ((λ c, [c]) <$> t));
  Ok (filter (λ s, s ≠ []) splits).

Definition _join_docs (docs : list text) (separator : text) : option text :=
  let t := strip (join separator docs) in
  if bool_decide (t = []) then None else Some t.

Section WithSizes.
Context (chunk_size chunk_overlap : Z).

(** The inner [while] loop of [_merge_splits]: drop pieces from the front
    of [current_doc] while it is longer than the overlap, or still too long
    to take the next piece of length [_len]. *)
Fixpoint pop_front (separator_len _len : Z) (current_doc : list text) (total : Z)
    : result (list text * Z) :=
  let again :=
    (total >? chunk_overlap)
    || ((total + _len + (if len current_doc >? 0 then separator_len else 0) >? chunk_size)
        && (total >? 0)) in
  match current_doc with
  | [] => if again then Raise IndexError else Ok ([], total)
  | d0 :: rest =>
      if again
      then pop_front separator_len _len rest
             (total - (len d0 + (if len current_doc >? 1 then separator_len else 0)))
      else Ok (current_doc, total)
  end.

(** One round of the [for d in splits] loop of [_merge_splits], on the
    state [(docs, current_doc, total)]. *)
Definition merge_step (separator : text) (st : list text * list text * Z) (d : text)
    : result (list text * list text * Z) :=
  let '(docs, current_doc, total) := st in
  let separator_len := len separator in
  let _len := len d in
  '(docs, current_doc, total) ←
    (if (total + _len + (if len current_doc >? 0 then separator_len else 0) >? chunk_size)
        && (len current_doc >? 0)
     then
       let docs :=
         match _join_docs current_doc separator with
         | Some doc => docs ++ [doc]
         | None => docs
         end in
       '(current_doc, total) ← pop_front separator_len _len current_doc total;
       Ok (docs, current_doc, total)
     else Ok (docs, current_doc, total));
  let current_doc := current_doc ++ [d] in
  Ok (docs, current_doc, total + _len + (if len current_doc >? 1 then separator_len else 0)).

Definition _merge_splits (splits : list text) (separator : text) : result (list text) :=
  '(docs, current_doc, _) ← for_each (merge_step separator) ([], [], 0) splits;
  match _join_docs current_doc separator with
  | Some doc => Ok (docs ++ [doc])
  | None => Ok docs
  end.

(** [final_chunks.extend(self._merge_splits(_good_splits, ""))] when
    [_good_splits] is not empty. *)
Definition flush (final_chunks _good_splits : list text) : result (list text) :=
  if bool_decide (_good_splits ≠ []) then
    merged_text ← _merge_splits _good_splits [];
    Ok (final_chunks ++ merged_text)
  else Ok final_chunks.

(** The body of [_split_text] once [separator] is chosen.  [recurse] is
    [None] when [new_separators] is empty and the recursive call on
    [new_separators] otherwise. *)
Definition split_with (recurse : option (text → result (list text)))
    (separator t : text) : result (list text) :=
  splits ← _split_text_with_regex t separator;
  '(final_chunks, _good_splits) ←
    for_each (λ '(final_chunks, _good_splits) s,
      if len s <? chunk_size then Ok (final_chunks, _good_splits ++ [s])
      else
        final_chunks ← flush final_chunks _good_splits;
        match recurse with
        | None => Ok (final_chunks ++ [s], [])
        | Some split_finer =>
            other_info ← split_finer s;
            Ok (final_chunks ++ other_info, [])
        end) ([], []) splits;
  flush final_chunks _good_splits.

(** [_split_text(t, separators)], by recursion on the separators still to
    try; [fallback] is [separators[-1]], used when no separator occurs in
    [t]. *)
Fixpoint split_from (separators : list text) (fallback t : text) : result (list text) :=
  match separators with
  | [] => split_with None fallback t
  | _s :: new_separators =>
      if bool_decide (_s = []) then split_with None _s t
      else if contains _s t then
        split_with
          (if bool_decide (new_separators = []) then None
           else Some (split_from new_separators fallback))
          _s t
      else split_from new_separators fallback t
  end.

Definition _split_text (t : text) (separators : list text) : result (list text) :=
  fallback ← getitem separators (-1);
  split_from separators fallback t.

(** The default separators: paragraph break, line break, space, nothing. *)
Definition default_separators : list text :=
  [[newline; newline]; [newline]; [space]; []].

Definition split_text (t : text) : result (list text) :=
  _split_text t default_separators.

End WithSizes.
End Splitter.


(** ** JSON

    Modelled from the spec: [json.load] and [json.dumps] belong to Python's
    standard library, not to [main.py]; the spec asks for parse-validate
    followed by canonical re-serialization.  [loads] follows the library's
    decoder ([scanstring], [JSONObject], [JSONArray], [scan_once],
    [decode]) and [dumps] its encoder with the default options
    ([ensure_ascii=True], separators [", "] and [": "]).

    Outside the model: number literals with a fraction or an exponent and
    the constants [NaN], [Infinity], [-Infinity], which Python reads as
    floating-point numbers.  On these the decoder below answers
    [Unmodelled], which is neither a value nor an error.  The recursion of
    the decoder is bounded by a counter set from the length of the input;
    should it run out, the answer is [Unmodelled] as well. *)

Module Json.

#[warnings="-register-all"]
Inductive json :=
  | JNull
  | JBool (b : bool)
  | JInt (n : Z)
  | JStr (s : text)
  | JArr (items : list json)
  | JObj (pairs : list (text * json)).

Definition is_ws (c : char) : bool :=
  bool_decide (c = 32%N) || bool_decide (c = 9%N)
  || bool_decide (c = 10%N) || bool_decide (c = 13%N).

(** [s[WHITESPACE.match(s, end).end():]]. *)
Fixpoint skip_ws (t : text) : text :=
  match t with
  | [] => []
  | c :: t' => if is_ws c then skip_ws t' else t
  end.

Definition is_digit (c : char) : bool := ((48 <=? c) && (c <=? 57))%N.

Definition hexval (c : char) : option N :=
  if ((48 <=? c) && (c <=? 57))%N then Some (c - 48)%N
  else if ((65 <=? c) && (c <=? 70))%N then Some (c - 55)%N
  else if ((97 <=? c) && (c <=? 102))%N then Some (c - 87)%N
  else None.

(** [_decode_uXXXX]: four hexadecimal digits. *)
Definition hex4 (t : text) : option (N * text) :=
  match t with
  | a :: b :: c :: d :: rest =>
      a ← hexval a; b ← hexval b; c ← hexval c; d ← hexval d;
      Some ((((a * 16 + b) * 16 + c) * 16 + d)%N, rest)
  | _ => None
  end.

(** The character a one-letter escape stands for. *)
Definition backslash (e : char) : option char :=
  if bool_decide (e = 34%N) then Some 34%N          (* quote *)
  else if bool_decide (e = 92%N) then Some 92%N     (* backslash *)
  else if bool_decide (e = 47%N) then Some 47%N     (* slash *)
  else if bool_decide (e = 98%N) then Some 8%N      (* backspace *)
  else if bool_decide (e = 102%N) then Some 12%N    (* form feed *)
  else if bool_decide (e = 110%N) then Some 10%N    (* line feed *)
  else if bool_decide (e = 114%N) then Some 13%N    (* carriage return *)
  else if bool_decide (e = 116%N) then Some 9%N     (* tab *)
  else None.

(** [scanstring(s, end, strict=True)], started after the opening quote;
    [acc] holds the characters decoded so far. *)
Fixpoint scanstring (fuel : nat) (acc t : text) : result (text * text) :=
  match fuel with
  | O => Unmodelled
  | S fuel =>
      match t with
      | [] => Raise JSONDecodeError
      | c :: t' =>
          if bool_decide (c = 34%N) then Ok (acc, t')
          else if bool_decide (c = 92%N) then
            match t' with
            | [] => Raise JSONDecodeError
            | e :: t'' =>
                if bool_decide (e = 117%N) then
                  match hex4 t'' with
                  | None => Raise JSONDecodeError
                  | Some (uni, t3) =>
                      if ((0xd800 <=? uni) && (uni <=? 0xdbff))%N
                         && startswith [92%N; 117%N] t3
                      then
                        match hex4 (drop 2 t3) with
                        | None => Raise JSONDecodeError
                        | Some (uni2, t5) =>
                            if ((0xdc00 <=? uni2) && (uni2 <=? 0xdfff))%N
                            then scanstring fuel
                                   (acc ++ [(0x10000 +
                                      N.lor (N.shiftl (uni - 0xd800) 10) (uni2 - 0xdc00))%N])
                                   t5
                            else scanstring fuel (acc ++ [uni]) t3
                        end
                      else scanstring fuel (acc ++ [uni]) t3
                  end
                else
                  match backslash e with
                  | Some ch => scanstring fuel (acc ++ [ch]) t''
                  | None => Raise JSONDecodeError
                  end
            end
          else if (c <? 32)%N then Raise JSONDecodeError
          else scanstring fuel (acc ++ [c]) t'
      end
  end.

(** The digits at the front of [t], read as a number continuing [acc]. *)
Fixpoint digits (acc : Z) (t : text) : Z * text :=
  match t with
  | [] => (acc, [])
  | c :: t' => if is_digit c then digits (acc * 10 + (Z.of_N c - 48)) t' else (acc, t)
  end.

(** Whether [t] goes on with a fraction (a dot and a digit) or an exponent
    (e or E, an optional sign, a digit). *)
Definition float_tail (t : text) : bool :=
  match t with
  | 46%N :: d :: _ => is_digit d
  | e :: t' =>
      (bool_decide (e = 101%N) || bool_decide (e = 69%N))
      && match t' with
         | s :: d :: _ =>
             is_digit s || ((bool_decide (s = 43%N) || bool_decide (s = 45%N)) && is_digit d)
         | [d] => is_digit d
         | [] => false
         end
  | [] => false
  end.

(** [NUMBER_RE.match]: an optional minus sign, then a lone zero or a digit
    from 1 to 9 followed by any digits; then the look at what follows.
    [None] when the text does not start with a number. *)
Definition number (t : text) : option (result (json * text)) :=
  let '(neg, t1) :=
    match t with
    | 45%N :: t1 => (true, t1)
    | _ => (false, t)
    end in
  match t1 with
  | d :: t2 =>
      if is_digit d then
        let '(n, rest) := if bool_decide (d = 48%N) then (0, t2) else digits 0 t1 in
        if float_tail rest then Some Unmodelled
        else Some (Ok (JInt (if neg then - n else n), rest))
      else None
  | [] => None
  end.

(** [dict(pairs)]: a key met again keeps its place and takes the new
    value. *)
Fixpoint dict_set (k : text) (v : json) (d : list (text * json)) : list (text * json) :=
  match d with
  | [] => [(k, v)]
  | (k', v') :: d' => if bool_decide (k' = k) then (k, v) :: d' else (k', v') :: dict_set k v d'
  end.

(** [scan_once], with [JSONArray] and [JSONObject] as the two loops. *)
Fixpoint scan_once (fuel : nat) (t : text) : result (json * text) :=
  match fuel with
  | O => Unmodelled
  | S fuel =>
      match t with
      | [] => Raise JSONDecodeError
      | c :: t' =>
          if bool_decide (c = 34%N) then
            '(s, rest) ← scanstring (S (length t')) [] t'; Ok (JStr s, rest)
          else if bool_decide (c = 123%N) then
            let t1 := skip_ws t' in
            match t1 with
            | 125%N :: rest => Ok (JObj [], rest)
            | 34%N :: rest => object_loop fuel [] rest
            | _ => Raise JSONDecodeError
            end
          else if bool_decide (c = 91%N) then
            let t1 := skip_ws t' in
            match t1 with
            | 93%N :: rest => Ok (JArr [], rest)
            | _ => array_loop fuel [] t1
            end
          else if startswith (str "null") t then Ok (JNull, drop 4 t)
          else if startswith (str "true") t then Ok (JBool true, drop 4 t)
          else if startswith (str "false") t then Ok (JBool false, drop 5 t)
          else
            match number t with
            | Some r => r
            | None =>
                if startswith (str "NaN") t || startswith (str "Infinity") t
                   || startswith (str "-Infinity") t
                then Unmodelled
                else Raise JSONDecodeError
            end
      end
  end
with array_loop (fuel : nat) (values : list json) (t : text) : result (json * text) :=
  match fuel with
  | O => Unmodelled
  | S fuel =>
      '(value, rest) ← scan_once fuel t;
      let values := values ++ [value] in
      match skip_ws rest with
      | 93%N :: rest => Ok (JArr values, rest)
      | 44%N :: rest => array_loop fuel values (skip_ws rest)
      | _ => Raise JSONDecodeError
      end
  end
with object_loop (fuel : nat) (pairs : list (text * json)) (t : text)
    : result (json * text) :=
  match fuel with
  | O => Unmodelled
  | S fuel =>
      '(key, rest) ← scanstring (S (length t)) [] t;
      match skip_ws rest with
      | 58%N :: rest =>
          '(value, rest) ← scan_once fuel (skip_ws rest);
          let pairs := dict_set key value pairs in
          match skip_ws rest with
          | 125%N :: rest => Ok (JObj pairs, rest)
          | 44%N :: rest =>
              match skip_ws rest with
              | 34%N :: rest => object_loop fuel pairs rest
              | _ => Raise JSONDecodeError
              end
          | _ => Raise JSONDecodeError
          end
      | _ => Raise JSONDecodeError
      end
  end.

(** [json.loads(s)] for a [str]. *)
Definition loads (s : text) : result json :=
  if startswith [0xfeff%N] s then Raise JSONDecodeError
  else
    '(obj, rest) ← scan_once (2 * length s + 2) (skip_ws s);
    if bool_decide (skip_ws rest = []) then Ok obj else Raise JSONDecodeError.

Definition hexdigit (n : N) : char := (if n <? 10 then 48 + n else 87 + n)%N.

(** ['\\u{0:04x}'.format(n)]. *)
Definition u_escape (n : N) : text :=
  [92%N; 117%N; hexdigit (n / 4096 mod 16)%N; hexdigit (n / 256 mod 16)%N;
   hexdigit (n / 16 mod 16)%N; hexdigit (n mod 16)%N].

(** The replacement of one character by [py_encode_basestring_ascii]. *)
Definition escape_char (c : char) : text :=
  if bool_decide (c = 92%N) then str "\\"
  else if bool_decide (c = 34%N) then [92%N; 34%N]
  else if bool_decide (c = 8%N) then str "\b"
  else if bool_decide (c = 12%N) then str "\f"
  else if bool_decide (c = 10%N) then str "\n"
  else if bool_decide (c = 13%N) then str "\r"
  else if bool_decide (c = 9%N) then str "\t"
  else if ((32 <=? c) && (c <=? 126))%N then [c]
  else if (c <? 0x10000)%N then u_escape c
  else
    let n := (c - 0x10000)%N in
    u_escape (N.lor 0xd800 (N.land (N.shiftr n 10) 0x3ff))
    ++ u_escape (N.lor 0xdc00 (N.land n 0x3ff)).

Definition encode_basestring_ascii (s : text) : text :=
  [34%N] ++ concat (escape_char <$> s) ++ [34%N].

(** [json.dumps(v)]. *)
Fixpoint dumps (v : json) : text :=
  match v with
  | JNull => str "null"
  | JBool true => str "true"
  | JBool false => str "false"
  | JInt n => str (pretty n)
  | JStr s => encode_basestring_ascii s
  | JArr items => str "[" ++ join (str ", ") (dumps <$> items) ++ str "]"
  | JObj pairs =>
      str "{"
      ++ join (str ", ")
           ((λ kv, encode_basestring_ascii kv.1 ++ str ": " ++ dumps kv.2) <$> pairs)
      ++ str "}"
  end.

End Json.

(** ** Values, records and the world around the service *)

(** The values the service stores in dictionaries.  A [float] is carried
    as the 64 bits of its IEEE 754 representation; the service only
    passes such values on. *)
Inductive value :=
  | VNone
  | VInt (n : Z)
  | VStr (s : text)
  | VFloat (bits : N).

Global Instance value_eq_dec : EqDecision value.
Proof. solve_decision. Defined.

(** A Python [dict] with string keys: the properties of a stored chunk,
    and one result of a search. *)
Abbreviation record := (gmap string value).

(** [d[key]]. *)
Definition subscript (d : record) (key : string) : result value :=
  match d !! key with
  | Some v => Ok v
  | None => Raise (KeyError key)
  end.

(** [d.get(key, dflt)]. *)
Definition get (d : record) (key : string) (dflt : value) : value :=
  default dflt (d !! key).

(** What the readers of the external libraries see in an uploaded file.
    Parsing PDF and DOCX files, OCR and decoding bytes are not part of
    the service; each field is the answer of one reader, or the exception
    it raises on this file.
    - [pdf_pages]: for each page, in page order, the string that
      [pytesseract.image_to_string] returns for the page image.
    - [docx_paragraphs]: [para.text] for each paragraph of
      [docx.Document(path).paragraphs].
    - [read_utf8]: [f.read()] after [open(path, "r", encoding="utf-8")]. *)
Record FileData := {
  pdf_pages : result (list text);
  docx_paragraphs : result (list text);
  read_utf8 : result text;
}.

(** The object handed to [upload]: a FastAPI [UploadFile] (attribute
    [filename]) or a Streamlit uploaded file (attribute [name]).  An
    absent attribute and an attribute that is [None] are both [None]. *)
Record UploadFile := {
  attr_filename : option text;
  attr_name : option text;
  file : FileData;
}.

(** [item.metadata] of an object returned by a query. *)
Record Metadata := {
  certainty : value;
  distance : value;
}.

(** An object returned by [near_text]. *)
Record Item := {
  properties : record;
  metadata : Metadata;
}.

(** What the service does to the outside, in order. *)
Inductive event :=
  | Connect                          (* get_weaviate_client() *)
  | Close                            (* client.close() *)
  | Mkdtemp                          (* tempfile.mkdtemp() *)
  | SaveFile (filename : text)       (* the upload copied to the temporary file *)
  | Rmtree                           (* shutil.rmtree(temp_dir) *)
  | DeleteMany (document_name : text)
  | ProcessDoc                       (* process_doc called on the saved file *)
  | AddObject (row : record)
  | NearText (query : text) (limit : Z).

(** Modelled from the spec: the vector store is an external service.  Its
    collection [DocumentChunk] is the list of the property dictionaries
    inserted and not deleted since, in insertion order;
    delete-by-document-name removes the objects whose [document_name] is
    the given name; insertion appends.  How the store answers a query is
    a function [near_text] of the objects it holds, the query and the
    limit; [search] takes it as an argument. *)
Record World := {
  objects : list record;
  trace : list event;
}.

(** A handler: a function of the world that returns an outcome and the
    world it leaves behind. *)
Definition M (A : Type) : Type := World → result A * World.

Global Instance M_ret : MRet M := λ A a w, (Ok a, w).
Global Instance M_bind : MBind M := λ A B f m w,
  match m w with
  | (Ok a, w') => f a w'
  | (Raise e, w') => (Raise e, w')
  | (Unmodelled, w') => (Unmodelled, w')
  end.

(** [for x in l: body(x)] in a handler. *)
Fixpoint for_each_M {A} (body : A → M unit) (l : list A) : M unit :=
  match l with
  | [] => mret ()
  | x :: l' => body x;; for_each_M body l'
  end.

(** [raise e]. *)
Definition raise {A} (e : exn) : M A := λ w, (Raise e, w).

(** A call without effect on the world. *)
Definition pure_call {A} (r : result A) : M A := λ w, (r, w).

(** [try: body finally: cleanup]: [cleanup] runs whatever [body] did, and
    the outcome of [body] stands unless [cleanup] itself raises. *)
Definition try_finally {A} (body : M A) (cleanup : M unit) : M A := λ w,
  let '(r, w1) := body w in
  match r with
  | Unmodelled => (Unmodelled, w1)
  | _ =>
      match cleanup w1 with
      | (Ok _, w2) => (r, w2)
      | (Raise e, w2) => (Raise e, w2)
      | (Unmodelled, w2) => (Unmodelled, w2)
      end
  end.

Definition emit (e : event) : M unit := λ w,
  (Ok (), {| objects := objects w; trace := trace w ++ [e] |}).

(** The objects of the collection, as a store request sees them. *)
Definition on_objects (f : list record → list record) : M unit := λ w,
  (Ok (), {| objects := f (objects w); trace := trace w |}).

Definition has_name (document_name : text) (row : record) : Prop :=
  row !! "document_name" = Some (VStr document_name).

Global Instance has_name_dec document_name row : Decision (has_name document_name row).
Proof. unfold has_name. apply _. Defined.

(** ** The service *)

Definition get_weaviate_client : M unit := emit Connect.

Definition delete_doc (document_name : text) : M unit :=
  get_weaviate_client;;
  try_finally
    (emit (DeleteMany document_name);;
     on_objects (filter (λ row, ¬ has_name document_name row)))
    (emit Close).

(** The dictionary built for the chunk at index [i]. *)
Definition document_chunk (chunk file_name : text) (i : Z) (file_type : text)
    (total_chunks : Z) (context_before context_after : text) : record :=
  <["text" := VStr chunk]>
  (<["document_name" := VStr file_name]>
  (<["chunk_id" := VInt i]>
  (<["document_type" := VStr file_type]>
  (<["total_chunks" := VInt total_chunks]>
  (<["context_before" := VStr context_before]>
  (<["context_after" := VStr context_after]> ∅)))))).

(** The loop of [process_doc] over [enumerate(chunks)]. *)
Definition link_chunks (chunks : list text) (file_type file_name : text)
    : result (list record) :=
  for_enumerate (λ document_chunks i chunk,
    context_before ← (if i >? 0 then getitem chunks (i - 1) else Ok []);
    context_after ← (if i <? len chunks - 1 then getitem chunks (i + 1) else Ok []);
    Ok (document_chunks
          ++ [document_chunk chunk file_name i file_type (len chunks)
                context_before context_after]))
    0 [] chunks.

(** The first half of [process_doc]: the text of the file, by type. *)
Definition extract_text (f : FileData) (file_type : text) : result text :=
  if text_eqb file_type (str "pdf") then
    pages ← pdf_pages f;
    for_each (λ text page, Ok (text ++ (page ++ [newline]))) [] pages
  else if text_eqb file_type (str "docx") then
    paragraphs ← docx_paragraphs f;
    Ok (join (str " ") paragraphs)
  else if text_eqb file_type (str "json") then
    s ← read_utf8 f;
    data ← Json.loads s;
    Ok (Json.dumps data)
  else if text_eqb file_type (str "txt") then
    read_utf8 f
  else Ok [].

Definition chunk_size : Z := 500.
Definition chunk_overlap : Z := 150.

Definition process_doc (f : FileData) (file_type file_name : text)
    : result (list record) :=
  text ← extract_text f file_type;
  chunks ← Splitter.split_text chunk_size chunk_overlap text;
  link_chunks chunks file_type file_name.

(** [a or b] on two attribute values. *)
Definition truthy (a : option text) : bool :=
  match a with
  | Some (_ :: _) => true
  | _ => false
  end.

Definition py_or (a b : option text) : option text := if truthy a then a else b.

(** [filename.split(".")[-1]]. *)
Definition file_extension (filename : text) : result text :=
  getitem (split_char 46%N filename) (-1).

Definition supported : list text := [str "pdf"; str "docx"; str "txt"; str "json"].

(** The dictionary [upload] returns. *)
Record UploadResponse := {
  success : bool;
  message : text;
  chunks : Z;
}.

(** The [try] block of [upload] with its [finally]. *)
Definition upload_try (filename file_extension : text) (f : FileData)
    : M (list record) :=
  try_finally
    (get_weaviate_client;;
     emit Mkdtemp;;
     emit (SaveFile filename);;
     delete_doc filename;;
     emit ProcessDoc;;
     chunks ← pure_call (process_doc f file_extension filename);
     for_each_M (λ data_row,
         emit (AddObject data_row);; on_objects (λ l, l ++ [data_row]))
       chunks;;
     mret chunks)
    (emit Rmtree;; emit Close).

Definition upload (upl : UploadFile) : M UploadResponse :=
  let filename := py_or (attr_filename upl) (attr_name upl) in
  if negb (truthy filename) then
    raise (HTTPException 400 (str "File does not have a valid filename"))
  else
    let filename := default [] filename in
    file_extension ← pure_call (file_extension filename);
    if bool_decide (file_extension ∉ supported) then
      raise (HTTPException 400 (str "Unsupported file format"))
    else
      chunks ← upload_try filename file_extension (file upl);
      mret {| success := true;
              message := str "Document '" ++ filename ++ str "' processed successfully";
              chunks := len chunks |}.

(** The dictionary [search] builds for one object of the response. *)
Definition search_result (item : Item) : result record :=
  text ← subscript (properties item) "text";
  document_name ← subscript (properties item) "document_name";
  chunk_id ← subscript (properties item) "chunk_id";
  document_type ← subscript (properties item) "document_type";
  Ok (<["text" := text]>
      (<["document_name" := document_name]>
      (<["chunk_id" := chunk_id]>
      (<["document_type" := document_type]>
      (<["context_before" := get (properties item) "context_before" (VStr [])]>
      (<["context_after" := get (properties item) "context_after" (VStr [])]>
      (<["relevance_score" := certainty (metadata item)]>
      (<["distance" := distance (metadata item)]> ∅)))))))).

(** The dictionary [search] returns. *)
Record SearchResponse := {
  results : list record;
  query : text;
}.

Definition search (near_text : list record → text → Z → list Item)
    (query : text) (limit : Z) : M SearchResponse :=
  get_weaviate_client;;
  results ←
    try_finally
      (emit (NearText query limit);;
       response ← (λ w, (Ok (near_text (objects w) query limit), w));
       pure_call
         (for_each (λ results item,
            row ← search_result item;
            Ok (results ++ [row])) [] response))
      (emit Close);
  mret {| results := results; query := query |}.

(** ** The collection and the handlers that manage it *)

(** [setup_weaviate_schema] and [delete_all] work on the collections of
    the cluster rather than on the objects of one collection, so they run
    on a state of their own: the collections by name, and the calls made. *)
Module Admin.

Inductive DataType := TEXT | INT.

Inductive Property := property (name : string) (data_type : DataType).

(** [Configure.NamedVectors.text2vec_weaviate(name, source_properties, model)]. *)
Record NamedVector := {
  vector_name : string;
  source_properties : list string;
  model : text;
}.

(** The arguments of [client.collections.create] after the name. *)
Record CollectionConfig := {
  description : text;
  vectorizer_config : list NamedVector;
  properties : list Property;
}.

Record Collection := {
  config : CollectionConfig;
  data : list record;
}.

(** The calls made to the cluster, in order. *)
Inductive call :=
  | Connected                      (* get_weaviate_client() *)
  | Closed                         (* client.close() *)
  | Asked (name : string)          (* client.collections.exists(name) *)
  | Created (name : string)        (* client.collections.create(name, ...) *)
  | Deleted (name : string).       (* client.collections.delete(name) *)

(** What the cluster answers to the creation of a collection that
    exists. *)
Inductive error := AlreadyExists (name : string).

(** Modelled from the spec: the cluster is an external service.  It holds
    collections by name; [exists] tells whether the name is taken,
    [create] adds an empty collection under a free name and fails on a
    taken one, [delete] removes the collection of that name with all its
    objects. *)
Record Cluster := {
  collections : gmap string Collection;
  calls : list call;
}.

Definition Admin (A : Type) : Type := Cluster → (error + A) * Cluster.

#[local] Instance Admin_ret : MRet Admin := λ A a c, (inr a, c).
#[local] Instance Admin_bind : MBind Admin := λ A B f m c,
  match m c with
  | (inr a, c') => f a c'
  | (inl e, c') => (inl e, c')
  end.

(** [try: body finally: cleanup]. *)
Definition try_finally {A} (body : Admin A) (cleanup : Admin unit) : Admin A := λ c,
  let '(r, c1) := body c in
  match cleanup c1 with
  | (inr _, c2) => (r, c2)
  | (inl e, c2) => (inl e, c2)
  end.

Definition log (x : call) : Admin unit := λ c,
  (inr (), {| collections := collections c; calls := calls c ++ [x] |}).

Definition get_weaviate_client : Admin unit := log Connected.

Definition client_close : Admin unit := log Closed.

Definition collections_exists (name : string) : Admin bool := λ c,
  (inr (bool_decide (is_Some (collections c !! name))),
   {| collections := collections c; calls := calls c ++ [Asked name] |}).

Definition collections_create (name : string) (cfg : CollectionConfig) : Admin unit := λ c,
  match collections c !! name with
  | Some _ =>
      (inl (AlreadyExists name),
       {| collections := collections c; calls := calls c ++ [Created name] |})
  | None =>
      (inr (),
       {| collections := <[name := {| config := cfg; data := [] |}]> (collections c);
          calls := calls c ++ [Created name] |})
  end.

Definition collections_delete (name : string) : Admin unit := λ c,
  (inr (),
   {| collections := delete name (collections c); calls := calls c ++ [Deleted name] |}).

(** The configuration [setup_weaviate_schema] creates the collection
    with. *)
Definition document_chunk_config : CollectionConfig :=
  {| description := str "Stores document text chunks with embeddings";
     vectorizer_config :=
       [{| vector_name := "document_vector";
           source_properties := ["text"];
           model := str "Snowflake/snowflake-arctic-embed-m-v1.5" |}];
     properties :=
       [property "document_name" TEXT;
        property "chunk_id" INT;
        property "document_type" TEXT;
        property "total_chunks" INT;
        property "text" TEXT;
        property "context_before" TEXT;
        property "context_after" TEXT] |}.

Definition setup_weaviate_schema : Admin unit :=
  get_weaviate_client;;
  present ← collections_exists "DocumentChunk";
  (if negb present
   then collections_create "DocumentChunk" document_chunk_config
   else mret ());;
  client_close.

Definition delete_all : Admin text :=
  try_finally
    (get_weaviate_client;;
     collections_delete "DocumentChunk";;
     setup_weaviate_schema)
    client_close;;
  mret (str "All documents deleted successfully").

End Admin.

(** ** Notions used to state the properties *)

(** The text of the chunk before index [i], or the empty string at the
    first index. *)
Definition chunk_before (chunks : list text) (i : nat) : text :=
  match i with
  | O => []
  | S j => default [] (chunks !! j)
  end.

(** The text of the chunk after index [i], or the empty string at the
    last index. *)
Definition chunk_after (chunks : list text) (i : nat) : text :=
  default [] (chunks !! S i).

(** The record [process_doc] is expected to build at index [i]. *)
Definition linked_record (chunks : list text) (file_type file_name : text)
    (i : nat) (chunk : text) : record :=
  document_chunk chunk file_name (Z.of_nat i) file_type (len chunks)
    (chunk_before chunks i) (chunk_after chunks i).

(** The events of an upload up to the call of [process_doc]. *)
Definition upload_prefix (filename : text) : list event :=
  [Connect; Mkdtemp; SaveFile filename; Connect; DeleteMany filename; Close; ProcessDoc].

(** What an upload that passed the two checks of [upload] amounts to: the
    answer and the world it leaves, by the outcome of [process_doc]. *)
Definition ingest_outcome (filename ext : text) (f : FileData) (w : World)
    : result UploadResponse * World :=
  let kept := filter (λ row, ¬ has_name filename row) (objects w) in
  match process_doc f ext filename with
  | Ok rows =>
      (Ok {| success := true;
             message := str "Document '" ++ filename ++ str "' processed successfully";
             chunks := len rows |},
       {| objects := kept ++ rows;
          trace := trace w ++ upload_prefix filename
                     ++ (AddObject <$> rows) ++ [Rmtree; Close] |})
  | Raise e =>
      (Raise e,
       {| objects := kept;
          trace := trace w ++ upload_prefix filename ++ [Rmtree; Close] |})
  | Unmodelled =>
      (Unmodelled,
       {| objects := kept; trace := trace w ++ upload_prefix filename |})
  end.

(** The fields [search] reads with [item.properties[...]]. *)
Definition required_fields : list string :=
  ["text"; "document_name"; "chunk_id"; "document_type"].

(** The chunk list of a text that fits in one chunk: the text without the
    white space around it, or nothing when no character is left. *)
Definition stripped_chunk (t : text) : list text :=
  if bool_decide (strip t = []) then [] else [strip t].

(** A chunk as the splitter may return it: not empty, and no longer than
    the chunk size. *)
Definition fits (chunk_size : Z) (c : text) : Prop := 0 < len c ≤ chunk_size.

(** A Unicode scalar value: a code point that is not a surrogate. *)
Definition scalar (c : char) : Prop :=
  (c < 0xd800 ∨ (0xe000 ≤ c ∧ c < 0x110000))%N.

(** A JSON value as [json.loads] can return it and [json.dumps] gives it
    back: strings of scalar values, and no key twice in an object. *)
Fixpoint well_formed (v : Json.json) : Prop :=
  match v with
  | Json.JStr s => Forall scalar s
  | Json.JArr items => fold_right (λ x P, well_formed x ∧ P) True items
  | Json.JObj pairs =>
      NoDup pairs.*1
      ∧ fold_right (λ kv P, Forall scalar kv.1 ∧ well_formed kv.2 ∧ P) True pairs
  | _ => True
  end.

(** The number of values in a JSON value, the value itself included, plus
    one for every element of an array and every pair of an object: the
    recursion depth the decoder needs at most. *)
Fixpoint nodes (v : Json.json) : nat :=
  match v with
  | Json.JArr items => S (fold_right (λ x n, S (nodes x + n)) 0%nat items)
  | Json.JObj pairs => S (fold_right (λ kv n, S (nodes kv.2 + n)) 0%nat pairs)
  | _ => 1%nat
  end.

(** What may follow a value in the output of [json.dumps]: nothing, a
    comma, or a closing bracket or brace. *)
Definition closes (rest : text) : Prop :=
  match rest with
  | [] => True
  | c :: _ => c = 44%N ∨ c = 93%N ∨ c = 125%N
  end.

(** The recursion depth the decoder needs for the elements of an array. *)
Definition weight (items : list Json.json) : nat :=
  fold_right (λ x n, S (nodes x + n)) 0%nat items.

(** What [json.dumps] writes for an array after its first element, and
    for an object after its first pair, followed by [rest]. *)
Fixpoint arr_tail (items : list Json.json) (rest : text) : text :=
  match items with
  | [] => 93%N :: rest
  | x :: items => str ", " ++ Json.dumps x ++ arr_tail items rest
  end.

Fixpoint obj_tail (pairs : list (text * Json.json)) (rest : text) : text :=
  match pairs with
  | [] => 125%N :: rest
  | kv :: pairs =>
      str ", " ++ Json.encode_basestring_ascii kv.1 ++ str ": " ++ Json.dumps kv.2
      ++ obj_tail pairs rest
  end.

(** A character a JSON value written by [json.dumps] can start with. *)
Definition starter (c : char) : Prop :=
  c = 110%N ∨ c = 116%N ∨ c = 102%N ∨ c = 34%N ∨ c = 91%N ∨ c = 123%N ∨ c = 45%N
  ∨ Json.is_digit c = true.

(** The decoder reads back what [json.dumps] wrote for [v], whatever
    closes the value afterwards. *)
Definition reads (v : Json.json) : Prop :=
  ∀ (fuel : nat) (rest : text),
    (nodes v ≤ fuel)%nat → closes rest →
    Json.scan_once fuel (Json.dumps v ++ rest) = Ok (v, rest).

(** How many events of a trace satisfy [p]. *)
Fixpoint tally (p : event → bool) (tr : list event) : nat :=
  match tr with
  | [] => 0%nat
  | e :: tr => ((if p e then 1 else 0) + tally p tr)%nat
  end.

Definition is_connect (e : event) : bool :=
  match e with Connect => true | _ => false end.
Definition is_close (e : event) : bool :=
  match e with Close => true | _ => false end.
Definition is_mkdtemp (e : event) : bool :=
  match e with Mkdtemp => true | _ => false end.
Definition is_rmtree (e : event) : bool :=
  match e with Rmtree => true | _ => false end.
Definition is_add (e : event) : bool :=
  match e with AddObject _ => true | _ => false end.
Definition is_store_change (e : event) : bool :=
  match e with AddObject _ | DeleteMany _ => true | _ => false end.

(** Every connection opened is closed, and every temporary directory made
    is removed. *)
Definition balanced (tr : list event) : Prop :=
  tally is_connect tr = tally is_close tr
  ∧ tally is_mkdtemp tr = tally is_rmtree tr.

(** A dictionary as [process_doc] builds it. *)
Definition built (row : record) : Prop :=
  ∃ chunk file_name i file_type total before after,
    row = document_chunk chunk file_name i file_type total before after.

(** The first of the fields [search] reads by subscript that an object
    lacks, in the order [search] reads them. *)
Definition missing_field (item : Item) : option string :=
  head (filter (λ key, properties item !! key = None) required_fields).

(** One result of [search] carries what the object holds: the four fields
    read by subscript, the two context fields or the empty string in their
    place, and the two numbers of the metadata; and nothing else. *)
Definition reshaped (item : Item) (row : record) : Prop :=
  row !! "text" = properties item !! "text"
  ∧ row !! "document_name" = properties item !! "document_name"
  ∧ row !! "chunk_id" = properties item !! "chunk_id"
  ∧ row !! "document_type" = properties item !! "document_type"
  ∧ row !! "context_before" = Some (default (VStr []) (properties item !! "context_before"))
  ∧ row !! "context_after" = Some (default (VStr []) (properties item !! "context_after"))
  ∧ row !! "relevance_score" = Some (certainty (metadata item))
  ∧ row !! "distance" = Some (distance (metadata item))
  ∧ dom row = list_to_set ["text"; "document_name"; "chunk_id"; "document_type";
                           "context_before"; "context_after"; "relevance_score";
                           "distance"].

(** The world after the given uploads, one after the other, whatever each
    of them answers. *)
Definition run_uploads (uploads : list UploadFile) (w : World) : World :=
  fold_left (λ w upl, (upload upl w).2) uploads w.

(** A value of the data type a property of the schema declares. *)
Definition has_type (v : value) (ty : Admin.DataType) : Prop :=
  match ty, v with
  | Admin.TEXT, VStr _ => True
  | Admin.INT, VInt _ => True
  | _, _ => False
  end.

Definition property_name (p : Admin.Property) : string :=
  match p with Admin.property name _ => name end.

(** A dictionary has the properties of a schema, each with a value of the
    declared type, and no other key. *)
Definition conforms (row : record) (schema : list Admin.Property) : Prop :=
  dom row = list_to_set (property_name <$> schema)
  ∧ Forall (λ p, match p with
                 | Admin.property name ty => ∃ v, row !! name = Some v ∧ has_type v ty
                 end) schema.

(** The collection as [setup_weaviate_schema] creates it. *)
Definition fresh_collection : Admin.Collection :=
  {| Admin.config := Admin.document_chunk_config; Admin.data := [] |}.

(** A printable ASCII character: from the space to the tilde. *)
Definition printable (c : char) : Prop := (32 ≤ c ≤ 126)%N.

(** The store holds whole documents: the objects stored under one name,
    in insertion order, are numbered from 0 without a gap, each carries
    their number as [total_chunks], and the context fields of two
    consecutive objects are each other's text. *)
Definition whole_documents (stored : list record) : Prop :=
  ∀ name,
    (∀ (i : nat) row, filter (has_name name) stored !! i = Some row →
       row !! "chunk_id" = Some (VInt (Z.of_nat i))
       ∧ row !! "total_chunks" = Some (VInt (len (filter (has_name name) stored))))
    ∧ (∀ (i : nat) row next,
         filter (has_name name) stored !! i = Some row →
         filter (has_name name) stored !! S i = Some next →
         row !! "context_after" = next !! "text"
         ∧ next !! "context_before" = row !! "text").

(** ** Example inputs *)

(** A file as the readers see it when it holds the text [s]: not a PDF,
    not a DOCX document. *)
Definition text_file (s : text) : FileData :=
  {| pdf_pages := Raise ExtractorError;
     docx_paragraphs := Raise ExtractorError;
     read_utf8 := Ok s |}.

(** Six hundred letters [a]: one chunk too long, so two chunks. *)
Definition letters : text := replicate 600 97%N.
Definition letters_chunks : list text := [replicate 500 97%N; replicate 250 97%N].

(** An upload as FastAPI hands it over: the attribute [filename] set. *)
Definition named_upload (filename : text) (f : FileData) : UploadFile :=
  {| attr_filename := Some filename; attr_name := None; file := f |}.

(** A store that holds one chunk of [a.json] and one chunk of [b.txt]. *)
Definition chunk_of_a : record :=
  document_chunk (str "old") (str "a.json") 0 (str "json") 1 [] [].
Definition chunk_of_b : record :=
  document_chunk (str "other") (str "b.txt") 0 (str "txt") 1 [] [].
Definition small_world : World :=
  {| objects := [chunk_of_a; chunk_of_b]; trace := [] |}.

(** A file whose text is an opening brace: not JSON. *)
Definition broken_json : FileData := text_file (str "{").

(** A PDF file whose pages the OCR reads as the given texts. *)
Definition pdf_file (pages : list text) : FileData :=
  {| pdf_pages := Ok pages;
     docx_paragraphs := Raise ExtractorError;
     read_utf8 := Raise UnicodeDecodeError |}.

(** A stored object without the two context fields, as a search returns
    it, and a store that answers every query with it. *)
Definition legacy_item : Item :=
  {| properties :=
       <["text" := VStr (str "old")]>
       (<["document_name" := VStr (str "a.json")]>
       (<["chunk_id" := VInt 0]>
       (<["document_type" := VStr (str "json")]> ∅)));
     metadata := {| certainty := VNone; distance := VNone |} |}.

Definition legacy_store (stored : list record) (query : text) (limit : Z) : list Item :=
  [legacy_item].

(** The JSON text of an object with the key [a] and the value 1, written
    without a space, and its canonical form. *)
Definition json_a1 : text := str "{" ++ [quote] ++ str "a" ++ [quote] ++ str ":1}".
Definition json_a1_canonical : text :=
  str "{" ++ [quote] ++ str "a" ++ [quote] ++ str ": 1}".

(** The same object laid out over two lines with spaces. *)
Definition json_a1_spaced : text :=
  str "{ " ++ [quote] ++ str "a" ++ [quote] ++ str " :" ++ [newline] ++ str "  1 }".

(** A store that answers every query with the first [limit] objects it
    holds, in insertion order. *)
Definition first_stored (stored : list record) (query : text) (limit : Z) : list Item :=
  (λ row, {| properties := row; metadata := {| certainty := VNone; distance := VNone |} |})
    <$> take (Z.to_nat limit) stored.

(** What the upload of [json_a1] under the name [a.json] answers and
    leaves behind in [small_world]: the old chunk of [a.json] replaced by
    the one record of the new text. *)
Definition a_json_row : record :=
  linked_record [json_a1_canonical] (str "json") (str "a.json") 0 json_a1_canonical.
Definition a_json_answer : UploadResponse :=
  {| success := true;
     message := str "Document 'a.json' processed successfully";
     chunks := 1 |}.
Definition a_json_world : World :=
  {| objects := [chunk_of_b; a_json_row];
     trace := upload_prefix (str "a.json") ++ [AddObject a_json_row; Rmtree; Close] |}.

(** A cluster whose collection holds the two chunks of [small_world]. *)
Definition small_cluster : Admin.Cluster :=
  {| Admin.collections :=
       {[ "DocumentChunk" := {| Admin.config := Admin.document_chunk_config;
                                Admin.data := [chunk_of_a; chunk_of_b] |} ]};
     Admin.calls := [] |}.

(** * Properties *)

(** ** Python lists *)

Lemma getitem_lookup {A} (l : list A) (i : nat) (x : A) :
  l !! i = Some x → getitem l (Z.of_nat i) = Ok x.
Proof.
  intros Hx. unfold getitem.
  destruct (Z.ltb_spec (Z.of_nat i) 0) as [?|_]; [lia|].
  destruct (Z.ltb_spec (Z.of_nat i) 0) as [?|_]; [lia|].
  by rewrite Nat2Z.id, Hx.
Qed.

Lemma getitem_last {A} (l : list A) (x : A) :
  last l = Some x → getitem l (-1) = Ok x.
Proof.
  intros Hx. unfold getitem, len. simpl.
  rewrite last_lookup in Hx.
  assert (Hlen : (0 < length l)%nat).
  { destruct l; simpl in *; [done|lia]. }
  destruct (Z.ltb_spec (-1 + Z.of_nat (length l)) 0) as [?|_]; [lia|].
  replace (Z.to_nat (-1 + Z.of_nat (length l))) with (Nat.pred (length l)) by lia.
  by rewrite Hx.
Qed.

(** ** Linking chunks to their neighbours *)

Section Link.
Context (file_type file_name : text).

(** The loop of [process_doc], started in the middle of the chunk list,
    neither raises nor leaves the model: it appends the expected record for
    every chunk still to visit. *)
Lemma link_loop (chunks done todo : list text) (rows : list record) :
  chunks = done ++ todo →
  for_enumerate (λ document_chunks i chunk,
    context_before ← (if i >? 0 then getitem chunks (i - 1) else Ok []);
    context_after ← (if i <? len chunks - 1 then getitem chunks (i + 1) else Ok []);
    Ok (document_chunks
          ++ [document_chunk chunk file_name i file_type (len chunks)
                context_before context_after]))
    (len done) rows todo
  = Ok (rows ++ imap (λ k, linked_record chunks file_type file_name (length done + k)) todo).
Proof.
  revert done rows. induction todo as [|chunk todo IH]; intros done rows Hchunks.
  - simpl. by rewrite app_nil_r.
  - cbn [for_enumerate imap].
    assert (Hhere : chunks !! length done = Some chunk).
    { subst chunks. by apply list_lookup_middle. }
    assert (Hbefore : (if len done >? 0 then getitem chunks (len done - 1) else Ok [])
                      = Ok (chunk_before chunks (length done))).
    { unfold len. destruct done as [|d done'] using rev_ind; [done|].
      rewrite length_app. simpl.
      destruct (Z.gtb_spec (Z.of_nat (length done' + 1)) 0) as [_|?]; [|lia].
      replace (Z.of_nat (length done' + 1) - 1) with (Z.of_nat (length done')) by lia.
      replace (length done' + 1)%nat with (S (length done')) by lia. simpl.
      assert (Hd : chunks !! length done' = Some d).
      { subst chunks. rewrite <- !app_assoc. by apply list_lookup_middle. }
      rewrite (getitem_lookup _ _ _ Hd). by rewrite Hd. }
    assert (Hafter : (if len done <? len chunks - 1 then getitem chunks (len done + 1) else Ok [])
                     = Ok (chunk_after chunks (length done))).
    { unfold len, chunk_after.
      destruct (Z.ltb_spec (Z.of_nat (length done)) (Z.of_nat (length chunks) - 1)) as [Hlt|Hge].
      - destruct (lookup_lt_is_Some_2 chunks (S (length done))) as [next Hnext]; [lia|].
        replace (Z.of_nat (length done) + 1) with (Z.of_nat (S (length done))) by lia.
        rewrite (getitem_lookup _ _ _ Hnext). by rewrite Hnext.
      - rewrite lookup_ge_None_2; [done|]. lia. }
    rewrite Hbefore, Hafter. cbn [mbind result_bind].
    specialize (IH (done ++ [chunk])
      (rows ++ [linked_record chunks file_type file_name (length done) chunk])).
    unfold linked_record, len in *. rewrite length_app in IH. simpl in IH.
    replace (Z.of_nat (length done) + 1) with (Z.of_nat (length done + 1)) by lia.
    rewrite IH by (by rewrite <- app_assoc).
    rewrite <- app_assoc. simpl. rewrite Nat.add_0_r. do 3 f_equal.
    apply imap_ext. intros k x _. simpl.
    by replace (length done + 1 + k)%nat with (length done + S k)%nat by lia.
Qed.

Lemma link_chunks_ok (chunks : list text) :
  link_chunks chunks file_type file_name
  = Ok (imap (linked_record chunks file_type file_name) chunks).
Proof.
  exact (link_loop chunks [] chunks [] eq_refl).
Qed.

End Link.

(** The seven fields of a built record. *)
Lemma document_chunk_fields chunk file_name i file_type total before after :
  let row := document_chunk chunk file_name i file_type total before after in
  row !! "text" = Some (VStr chunk)
  ∧ row !! "document_name" = Some (VStr file_name)
  ∧ row !! "chunk_id" = Some (VInt i)
  ∧ row !! "document_type" = Some (VStr file_type)
  ∧ row !! "total_chunks" = Some (VInt total)
  ∧ row !! "context_before" = Some (VStr before)
  ∧ row !! "context_after" = Some (VStr after).
Proof. unfold document_chunk. by repeat split; simplify_map_eq. Qed.

Lemma linked_record_text chunks file_type file_name i chunk :
  linked_record chunks file_type file_name i chunk !! "text" = Some (VStr chunk).
Proof.
  unfold linked_record.
  by destruct (document_chunk_fields chunk file_name (Z.of_nat i) file_type
                 (len chunks) (chunk_before chunks i) (chunk_after chunks i))
    as (H & _).
Qed.

Lemma linked_record_name chunks file_type file_name i chunk :
  has_name file_name (linked_record chunks file_type file_name i chunk).
Proof.
  unfold linked_record, has_name.
  by destruct (document_chunk_fields chunk file_name (Z.of_nat i) file_type
                 (len chunks) (chunk_before chunks i) (chunk_after chunks i))
    as (_ & H & _).
Qed.

Lemma linked_record_total chunks file_type file_name i chunk :
  linked_record chunks file_type file_name i chunk !! "total_chunks"
  = Some (VInt (len chunks)).
Proof.
  unfold linked_record.
  by destruct (document_chunk_fields chunk file_name (Z.of_nat i) file_type
                 (len chunks) (chunk_before chunks i) (chunk_after chunks i))
    as (_ & _ & _ & _ & H & _).
Qed.

(** What [process_doc] returns when it returns: the linked records of the
    chunks the splitter made of the extracted text. *)
Lemma process_doc_ok f file_type file_name rows :
  process_doc f file_type file_name = Ok rows →
  ∃ text chunks,
    extract_text f file_type = Ok text
    ∧ Splitter.split_text chunk_size chunk_overlap text = Ok chunks
    ∧ rows = imap (linked_record chunks file_type file_name) chunks.
Proof.
  unfold process_doc. intros H.
  destruct (extract_text f file_type) as [text| |]; simpl in H; [|done..].
  destruct (Splitter.split_text chunk_size chunk_overlap text) as [chunks| |] eqn:Hsplit;
    simpl in H; [|done..].
  rewrite link_chunks_ok in H.
  exists text, chunks. by inversion H.
Qed.

(** And the other way round: from the text and its chunks to the records. *)
Lemma process_doc_from_chunks f file_type file_name doc_text chunks :
  extract_text f file_type = Ok doc_text →
  Splitter.split_text chunk_size chunk_overlap doc_text = Ok chunks →
  process_doc f file_type file_name
  = Ok (imap (linked_record chunks file_type file_name) chunks).
Proof.
  intros Htext Hsplit. unfold process_doc.
  rewrite Htext. cbn [mbind result_bind]. rewrite Hsplit. cbn [mbind result_bind].
  apply link_chunks_ok.
Qed.

(** C1.  For the chunk sequence [chunks] that the splitter makes of the text
    of a document, [process_doc] returns one record per chunk, and the
    record at index [i] holds the chunk at [i] as its text, the unchanged
    chunk at [i - 1] as [context_before] (the empty string when [i = 0])
    and the unchanged chunk at [i + 1] as [context_after] (the empty string
    at the last index). *)
Theorem context_fields_are_the_neighbours f file_type file_name doc_text chunks :
  extract_text f file_type = Ok doc_text →
  Splitter.split_text chunk_size chunk_overlap doc_text = Ok chunks →
  ∃ rows,
    process_doc f file_type file_name = Ok rows
    ∧ length rows = length chunks
    ∧ ∀ (i : nat) chunk, chunks !! i = Some chunk →
        ∃ row,
          rows !! i = Some row
          ∧ row !! "text" = Some (VStr chunk)
          ∧ (i = 0%nat → row !! "context_before" = Some (VStr []))
          ∧ ((0 < i)%nat → ∃ prev, chunks !! (i - 1)%nat = Some prev
                                   ∧ row !! "context_before" = Some (VStr prev))
          ∧ (i = (length chunks - 1)%nat → row !! "context_after" = Some (VStr []))
          ∧ ((i < length chunks - 1)%nat →
               ∃ next, chunks !! (i + 1)%nat = Some next
                       ∧ row !! "context_after" = Some (VStr next)).
Proof.
  intros Htext Hsplit.
  exists (imap (linked_record chunks file_type file_name) chunks).
  split; [|split].
  - by apply (process_doc_from_chunks _ _ _ doc_text).
  - apply length_imap.
  - intros i chunk Hi.
    exists (linked_record chunks file_type file_name i chunk).
    pose proof (lookup_lt_Some _ _ _ Hi) as Hlt.
    destruct (document_chunk_fields chunk file_name (Z.of_nat i) file_type
                (len chunks) (chunk_before chunks i) (chunk_after chunks i))
      as (Ht & _ & _ & _ & _ & Hb & Ha).
    unfold linked_record. split; [|split; [done|]].
    { by rewrite list_lookup_imap, Hi. }
    repeat split.
    + intros ->. by rewrite Hb.
    + intros Hpos. exists (chunk_before chunks i). split; [|done].
      destruct i as [|j]; [lia|]. simpl.
      destruct (lookup_lt_is_Some_2 chunks j) as [prev Hprev]; [lia|].
      by rewrite Nat.sub_0_r, Hprev.
    + intros ->. rewrite Ha. unfold chunk_after.
      rewrite lookup_ge_None_2; [done|lia].
    + intros Hnotlast.
      destruct (lookup_lt_is_Some_2 chunks (S i)) as [next Hnext]; [lia|].
      exists next. rewrite Ha. unfold chunk_after. rewrite Hnext.
      split; [|done]. by replace (i + 1)%nat with (S i) by lia.
Qed.

Lemma context_fields_are_the_neighbours_witness :
  extract_text (text_file letters) (str "txt") = Ok letters
  ∧ Splitter.split_text chunk_size chunk_overlap letters = Ok letters_chunks
  ∧ ∃ rows,
      process_doc (text_file letters) (str "txt") (str "a.txt") = Ok rows
      ∧ length rows = length letters_chunks
      ∧ ∀ (i : nat) chunk, letters_chunks !! i = Some chunk →
          ∃ row,
            rows !! i = Some row
            ∧ row !! "text" = Some (VStr chunk)
            ∧ (i = 0%nat → row !! "context_before" = Some (VStr []))
            ∧ ((0 < i)%nat → ∃ prev, letters_chunks !! (i - 1)%nat = Some prev
                                     ∧ row !! "context_before" = Some (VStr prev))
            ∧ (i = (length letters_chunks - 1)%nat →
                 row !! "context_after" = Some (VStr []))
            ∧ ((i < length letters_chunks - 1)%nat →
                 ∃ next, letters_chunks !! (i + 1)%nat = Some next
                         ∧ row !! "context_after" = Some (VStr next)).
Proof.
  split; [vm_compute; reflexivity|].
  split; [vm_compute; reflexivity|].
  apply (context_fields_are_the_neighbours (text_file letters) (str "txt") (str "a.txt")
           letters letters_chunks); vm_compute; reflexivity.
Defined.

(** C4.  The records [process_doc] returns for a document are numbered by
    [chunk_id] from 0 in steps of one, without gaps, in the order of the
    list; every record carries the name and the type of the document and,
    as [total_chunks], the number of records. *)
Theorem records_are_dense_and_uniform f file_type file_name rows :
  process_doc f file_type file_name = Ok rows →
  ∀ i : nat, (i < length rows)%nat →
    ∃ row,
      rows !! i = Some row
      ∧ row !! "chunk_id" = Some (VInt (Z.of_nat i))
      ∧ row !! "document_name" = Some (VStr file_name)
      ∧ row !! "document_type" = Some (VStr file_type)
      ∧ row !! "total_chunks" = Some (VInt (Z.of_nat (length rows))).
Proof.
  intros Hrows i Hi.
  destruct (process_doc_ok _ _ _ _ Hrows) as (doc_text & chunks & _ & _ & ->).
  rewrite length_imap in Hi |- *.
  destruct (lookup_lt_is_Some_2 chunks i Hi) as [chunk Hchunk].
  exists (linked_record chunks file_type file_name i chunk).
  destruct (document_chunk_fields chunk file_name (Z.of_nat i) file_type
              (len chunks) (chunk_before chunks i) (chunk_after chunks i))
    as (_ & Hn & Hid & Hty & Htotal & _ & _).
  split; [by rewrite list_lookup_imap, Hchunk|].
  unfold linked_record. by repeat split.
Qed.

Lemma records_are_dense_and_uniform_witness :
  process_doc (text_file letters) (str "txt") (str "a.txt")
  = Ok (imap (linked_record letters_chunks (str "txt") (str "a.txt")) letters_chunks)
  ∧ ∀ i : nat,
      (i < length (imap (linked_record letters_chunks (str "txt") (str "a.txt"))
                     letters_chunks))%nat →
      ∃ row,
        imap (linked_record letters_chunks (str "txt") (str "a.txt")) letters_chunks !! i
        = Some row
        ∧ row !! "chunk_id" = Some (VInt (Z.of_nat i))
        ∧ row !! "document_name" = Some (VStr (str "a.txt"))
        ∧ row !! "document_type" = Some (VStr (str "txt"))
        ∧ row !! "total_chunks"
          = Some (VInt (Z.of_nat
                   (length (imap (linked_record letters_chunks (str "txt") (str "a.txt"))
                              letters_chunks)))).
Proof.
  assert (H : process_doc (text_file letters) (str "txt") (str "a.txt")
              = Ok (imap (linked_record letters_chunks (str "txt") (str "a.txt"))
                      letters_chunks))
    by (apply (process_doc_from_chunks _ _ _ letters); vm_compute; reflexivity).
  split; [exact H|].
  exact (records_are_dense_and_uniform _ _ _ _ H).
Defined.

(** ** The file extension *)

Lemma split_char_nonempty sep t : split_char sep t ≠ [].
Proof.
  destruct t as [|c t]; simpl; [done|].
  case_bool_decide; [done|]. by destruct (split_char sep t).
Qed.

(** Without the separator there is one piece, the text itself. *)
Lemma split_char_whole sep t : sep ∉ t → split_char sep t = [t].
Proof.
  induction t as [|c t IH]; intros Hnot; simpl; [done|].
  apply not_elem_of_cons in Hnot as [Hne Hnot].
  rewrite bool_decide_eq_false_2 by done. by rewrite IH.
Qed.

(** [(a + sep + b).split(sep) == a.split(sep) + b.split(sep)]. *)
Lemma split_char_app sep a b :
  split_char sep (a ++ sep :: b) = split_char sep a ++ split_char sep b.
Proof.
  induction a as [|c a IH]; simpl.
  - by rewrite bool_decide_eq_true_2.
  - case_bool_decide; [by rewrite IH|].
    rewrite IH. pose proof (split_char_nonempty sep a).
    by destruct (split_char sep a).
Qed.

Lemma file_extension_no_dot name : 46%N ∉ name → file_extension name = Ok name.
Proof.
  intros Hnot. unfold file_extension. by rewrite split_char_whole.
Qed.

Lemma file_extension_after_last_dot stem ext :
  46%N ∉ ext → file_extension (stem ++ 46%N :: ext) = Ok ext.
Proof.
  intros Hnot. unfold file_extension. apply getitem_last.
  rewrite split_char_app, (split_char_whole _ ext) by done.
  apply last_snoc.
Qed.

(** ** Running [upload] *)

(** The batch insertion appends the rows to the collection and records one
    insertion per row. *)
Lemma insert_rows (rows : list record) (w : World) :
  for_each_M (λ data_row,
      emit (AddObject data_row);; on_objects (λ l, l ++ [data_row])) rows w
  = (Ok (), {| objects := objects w ++ rows;
               trace := trace w ++ (AddObject <$> rows) |}).
Proof.
  revert w. induction rows as [|row rows IH]; intros w.
  - simpl. rewrite !app_nil_r. by destruct w.
  - cbn [for_each_M]. unfold mbind, M_bind at 1. 
    unfold emit at 1, on_objects at 1. unfold mbind, M_bind at 1. simpl.
    rewrite IH. simpl. by rewrite <- !app_assoc.
Qed.

(** The three ways the [try] block of [upload] can end, by the outcome of
    [process_doc]. *)
Lemma upload_try_run filename ext f w :
  upload_try filename ext f w =
  let kept := filter (λ row, ¬ has_name filename row) (objects w) in
  match process_doc f ext filename with
  | Ok rows =>
      (Ok rows,
       {| objects := kept ++ rows;
          trace := trace w ++ upload_prefix filename ++ (AddObject <$> rows) ++ [Rmtree; Close] |})
  | Raise e =>
      (Raise e,
       {| objects := kept;
          trace := trace w ++ upload_prefix filename ++ [Rmtree; Close] |})
  | Unmodelled =>
      (Unmodelled,
       {| objects := kept; trace := trace w ++ upload_prefix filename |})
  end.
Proof.
  unfold upload_try, try_finally, delete_doc, try_finally, get_weaviate_client.
  unfold mbind, M_bind, emit, on_objects, pure_call. simpl.
  destruct (process_doc f ext filename) as [rows|e|]; simpl.
  - rewrite insert_rows. simpl. unfold mret, M_ret. simpl.
    by rewrite <- !app_assoc.
  - by rewrite <- !app_assoc.
  - by rewrite <- !app_assoc.
Qed.

(** An upload without a usable file name is refused before anything
    happens. *)
Lemma upload_no_filename upl w :
  truthy (py_or (attr_filename upl) (attr_name upl)) = false →
  upload upl w
  = (Raise (HTTPException 400 (str "File does not have a valid filename")), w).
Proof. intros H. unfold upload. by rewrite H. Qed.

(** An upload with a file name is refused or ingested according to its
    extension alone. *)
Lemma upload_named upl w name ext :
  py_or (attr_filename upl) (attr_name upl) = Some name →
  name ≠ [] →
  file_extension name = Ok ext →
  upload upl w
  = if bool_decide (ext ∈ supported)
    then ingest_outcome name ext (file upl) w
    else (Raise (HTTPException 400 (str "Unsupported file format")), w).
Proof.
  intros Hname Hne Hext. unfold upload. rewrite Hname.
  destruct name as [|c name]; [done|]. cbn [truthy negb default].
  unfold mbind at 1, M_bind at 1, pure_call at 1, id. rewrite Hext.
  destruct (decide (ext ∈ supported)) as [Hin|Hout].
  - rewrite (bool_decide_eq_false_2 (ext ∉ supported)) by tauto.
    rewrite (bool_decide_eq_true_2 _ Hin).
    unfold mbind, M_bind. rewrite upload_try_run. unfold ingest_outcome.
    by destruct (process_doc (file upl) ext (c :: name)).
  - rewrite (bool_decide_eq_true_2 (ext ∉ supported)) by done.
    by rewrite (bool_decide_eq_false_2 _ Hout).
Qed.

(** C8.  An upload whose file name has an extension outside [pdf], [docx],
    [txt], [json] is answered with HTTP status 400 and the detail
    [Unsupported file format], and the world is left as it was: nothing is
    deleted from the store, nothing is inserted, no request is sent. *)
Theorem unsupported_format_is_refused_untouched upl w name ext :
  py_or (attr_filename upl) (attr_name upl) = Some name →
  name ≠ [] →
  file_extension name = Ok ext →
  ext ∉ supported →
  upload upl w = (Raise (HTTPException 400 (str "Unsupported file format")), w).
Proof.
  intros Hname Hne Hext Hout.
  rewrite (upload_named upl w name ext) by done.
  by rewrite bool_decide_eq_false_2.
Qed.

Lemma unsupported_format_is_refused_untouched_witness :
  py_or (attr_filename (named_upload (str "notes.md") (text_file (str "# notes"))))
        (attr_name (named_upload (str "notes.md") (text_file (str "# notes"))))
  = Some (str "notes.md")
  ∧ (str "notes.md" ≠ [])
  ∧ file_extension (str "notes.md") = Ok (str "md")
  ∧ (str "md" ∉ supported)
  ∧ upload (named_upload (str "notes.md") (text_file (str "# notes"))) small_world
    = (Raise (HTTPException 400 (str "Unsupported file format")), small_world).
Proof.
  assert (H1 : py_or (attr_filename (named_upload (str "notes.md") (text_file (str "# notes"))))
                 (attr_name (named_upload (str "notes.md") (text_file (str "# notes"))))
               = Some (str "notes.md")) by reflexivity.
  assert (H2 : str "notes.md" ≠ []) by (vm_compute; discriminate).
  assert (H3 : file_extension (str "notes.md") = Ok (str "md")) by (vm_compute; reflexivity).
  assert (H4 : str "md" ∉ supported) by compute_done.
  do 4 (split; [assumption|]).
  exact (unsupported_format_is_refused_untouched _ small_world _ _ H1 H2 H3 H4).
Defined.




(** ** Searching *)

Lemma search_result_ok item :
  (∀ key, key ∈ required_fields → is_Some (properties item !! key)) →
  ∃ row,
    search_result item = Ok row
    ∧ row !! "context_before" = Some (get (properties item) "context_before" (VStr []))
    ∧ row !! "context_after" = Some (get (properties item) "context_after" (VStr [])).
Proof.
  intros Hreq. unfold search_result, subscript.
  destruct (Hreq "text") as [v1 ->]; [set_solver|].
  destruct (Hreq "document_name") as [v2 ->]; [set_solver|].
  destruct (Hreq "chunk_id") as [v3 ->]; [set_solver|].
  destruct (Hreq "document_type") as [v4 ->]; [set_solver|].
  simpl. eexists. split; [reflexivity|]. by split; simplify_map_eq.
Qed.

(** The loop of [search] over the objects of the response. *)
Lemma search_loop (response : list Item) (acc : list record) :
  (∀ item, item ∈ response →
     ∀ key, key ∈ required_fields → is_Some (properties item !! key)) →
  ∃ rows,
    for_each (λ results item, row ← search_result item; Ok (results ++ [row]))
      acc response = Ok (acc ++ rows)
    ∧ Forall2 (λ item row, search_result item = Ok row) response rows.
Proof.
  revert acc. induction response as [|item response IH]; intros acc Hreq.
  - exists []. by rewrite app_nil_r.
  - destruct (search_result_ok item) as (row & Hrow & _).
    { apply Hreq. by left. }
    destruct (IH (acc ++ [row])) as (rows & Hloop & Hall).
    { intros item' Hin. apply Hreq. by right. }
    exists (row :: rows). split.
    + simpl. rewrite Hrow. simpl. rewrite Hloop. by rewrite <- app_assoc.
    + by constructor.
Qed.

(** C9.  When every object the store returns for a query has the four
    fields [search] reads by subscript, the search succeeds with one result
    per object, in order; in each result [context_before] and
    [context_after] are the stored values when the object has them and the
    empty string when the object lacks them. *)
Theorem missing_context_defaults_to_empty near_text query limit w :
  (∀ item, item ∈ near_text (objects w) query limit →
     ∀ key, key ∈ required_fields → is_Some (properties item !! key)) →
  ∃ rows,
    search near_text query limit w
    = (Ok {| results := rows; query := query |},
       {| objects := objects w;
          trace := trace w ++ [Connect; NearText query limit; Close] |})
    ∧ length rows = length (near_text (objects w) query limit)
    ∧ ∀ (i : nat) item, near_text (objects w) query limit !! i = Some item →
        ∃ row,
          rows !! i = Some row
          ∧ (properties item !! "context_before" = None →
               row !! "context_before" = Some (VStr []))
          ∧ (properties item !! "context_after" = None →
               row !! "context_after" = Some (VStr []))
          ∧ (∀ v, properties item !! "context_before" = Some v →
               row !! "context_before" = Some v)
          ∧ (∀ v, properties item !! "context_after" = Some v →
               row !! "context_after" = Some v).
Proof.
  intros Hreq.
  destruct (search_loop (near_text (objects w) query limit) [] Hreq)
    as (rows & Hloop & Hall).
  exists rows. split; [|split].
  - unfold search, get_weaviate_client, try_finally.
    unfold mbind in Hloop. unfold mbind, M_bind, emit, pure_call. simpl.
    rewrite Hloop. simpl. unfold mret, M_ret. by rewrite <- !app_assoc.
  - symmetry. by eapply Forall2_length.
  - intros i item Hitem.
    destruct (Forall2_lookup_l _ _ _ _ _ Hall Hitem) as (row & Hrow & Hres).
    exists row. split; [done|].
    destruct (search_result_ok item) as (row' & Hres' & Hb & Ha).
    { apply Hreq. by eapply list_elem_of_lookup_2. }
    rewrite Hres in Hres'. injection Hres' as <-.
    unfold get in Hb, Ha.
    repeat split.
    + intros Hnone. by rewrite Hb, Hnone.
    + intros Hnone. by rewrite Ha, Hnone.
    + intros v Hv. by rewrite Hb, Hv.
    + intros v Hv. by rewrite Ha, Hv.
Qed.

Lemma missing_context_defaults_to_empty_witness :
  (∀ item, item ∈ legacy_store (objects small_world) (str "refund policy") 5 →
     ∀ key, key ∈ required_fields → is_Some (properties item !! key))
  ∧ ∃ rows,
      search legacy_store (str "refund policy") 5 small_world
      = (Ok {| results := rows; query := str "refund policy" |},
         {| objects := objects small_world;
            trace := trace small_world
                       ++ [Connect; NearText (str "refund policy") 5; Close] |})
      ∧ length rows = length (legacy_store (objects small_world) (str "refund policy") 5)
      ∧ ∀ (i : nat) item,
          legacy_store (objects small_world) (str "refund policy") 5 !! i = Some item →
          ∃ row,
            rows !! i = Some row
            ∧ (properties item !! "context_before" = None →
                 row !! "context_before" = Some (VStr []))
            ∧ (properties item !! "context_after" = None →
                 row !! "context_after" = Some (VStr []))
            ∧ (∀ v, properties item !! "context_before" = Some v →
                 row !! "context_before" = Some v)
            ∧ (∀ v, properties item !! "context_after" = Some v →
                 row !! "context_after" = Some v).
Proof.
  assert (H : ∀ item, item ∈ legacy_store (objects small_world) (str "refund policy") 5 →
                ∀ key, key ∈ required_fields → is_Some (properties item !! key)).
  { intros item Hitem key Hkey.
    apply list_elem_of_singleton in Hitem as ->.
    unfold required_fields in Hkey. rewrite !elem_of_cons in Hkey.
    destruct Hkey as [->|[->|[->|[->|Hkey]]]];
      [vm_compute; eauto..|by apply elem_of_nil in Hkey]. }
  split; [exact H|].
  exact (missing_context_defaults_to_empty legacy_store (str "refund policy") 5 small_world H).
Defined.

(** ** The text of a PDF file *)

Lemma pdf_text_loop (pages : list text) (acc : text) :
  for_each (λ text page, Ok (text ++ (page ++ [newline]))) acc pages
  = Ok (acc ++ concat ((λ page, page ++ [newline]) <$> pages)).
Proof.
  revert acc. induction pages as [|page pages IH]; intros acc; simpl.
  - by rewrite app_nil_r.
  - rewrite IH. by rewrite <- !app_assoc.
Qed.

Lemma concat_terminated_join (pages : list text) :
  pages ≠ [] →
  concat ((λ page, page ++ [newline]) <$> pages) = join [newline] pages ++ [newline].
Proof.
  induction pages as [|page pages IH]; [done|]. intros _.
  destruct pages as [|page' pages].
  - simpl. by rewrite app_nil_r.
  - rewrite fmap_cons. cbn [concat]. rewrite IH by done.
    cbn [join]. by rewrite <- !app_assoc.
Qed.

(** C7, as the code has it.  The text of a PDF file is the concatenation,
    in page order, of the OCR text of each page followed by a newline: a
    newline ends every page, the last one included.  With at least one
    page, the text is the page texts joined by newlines and one more
    newline at the end. *)
Theorem pdf_text_ends_every_page_with_newline f pages :
  pdf_pages f = Ok pages →
  extract_text f (str "pdf") = Ok (concat ((λ page, page ++ [newline]) <$> pages))
  ∧ (pages ≠ [] → extract_text f (str "pdf") = Ok (join [newline] pages ++ [newline])).
Proof.
  intros Hpages.
  assert (H : extract_text f (str "pdf")
              = Ok (concat ((λ page, page ++ [newline]) <$> pages))).
  { unfold extract_text. change (text_eqb (str "pdf") (str "pdf")) with true.
    cbv iota. rewrite Hpages. simpl. apply (pdf_text_loop pages []). }
  split; [exact H|].
  intros Hne. by rewrite H, concat_terminated_join.
Qed.

Lemma pdf_text_ends_every_page_with_newline_witness :
  pdf_pages (pdf_file [str "page one"; str "page two"]) = Ok [str "page one"; str "page two"]
  ∧ extract_text (pdf_file [str "page one"; str "page two"]) (str "pdf")
    = Ok (concat ((λ page, page ++ [newline]) <$> [str "page one"; str "page two"]))
  ∧ ([str "page one"; str "page two"] ≠ [] →
     extract_text (pdf_file [str "page one"; str "page two"]) (str "pdf")
     = Ok (join [newline] [str "page one"; str "page two"] ++ [newline])).
Proof.
  split; [reflexivity|].
  exact (pdf_text_ends_every_page_with_newline
           (pdf_file [str "page one"; str "page two"]) _ eq_refl).
Defined.

(** C7, as the spec has it, fails: the text of a PDF file with the single
    page [a] is not [a], the join of its page texts, but [a] followed by a
    newline. *)
Lemma pdf_text_is_not_a_join :
  pdf_pages (pdf_file [str "a"]) = Ok [str "a"]
  ∧ extract_text (pdf_file [str "a"]) (str "pdf") = Ok (str "a" ++ [newline])
  ∧ extract_text (pdf_file [str "a"]) (str "pdf") ≠ Ok (join [newline] [str "a"]).
Proof. split; [done|]. split; [by vm_compute|]. by vm_compute. Qed.

(** ** The splitter on a text that fits in one chunk *)

Lemma startswith_app p t : startswith p t = true → t = p ++ drop (length p) t.
Proof.
  revert t. induction p as [|a p IH]; intros t H; simpl in *; [done|].
  destruct t as [|b t]; [done|].
  apply andb_prop in H as [Hab Hp].
  apply bool_decide_eq_true_1 in Hab as ->.
  simpl. f_equal. by apply IH.
Qed.

Lemma join_cons_cons (sep p q : text) (l : list text) :
  join sep (p :: q :: l) = p ++ sep ++ join sep (q :: l).
Proof. reflexivity. Qed.

Lemma join_nil parts : join [] parts = concat parts.
Proof.
  induction parts as [|p parts IH]; [done|].
  destruct parts as [|q parts]; simpl in *.
  - by rewrite app_nil_r.
  - by rewrite IH.
Qed.

Lemma concat_filter_nonempty (l : list text) :
  concat (filter (λ s, s ≠ []) l) = concat l.
Proof.
  induction l as [|p l IH]; [done|].
  rewrite filter_cons. destruct (decide (p ≠ [])) as [Hp|Hp]; simpl.
  - by rewrite IH.
  - apply dec_stable in Hp. by rewrite Hp, IH.
Qed.

Lemma filter_nonempty_id (l : list text) :
  Forall (λ s, s ≠ []) l → filter (λ s, s ≠ []) l = l.
Proof.
  induction 1 as [|p l Hp _ IH]; [done|].
  rewrite filter_cons. destruct (decide (p ≠ [])); [by rewrite IH|done].
Qed.

Lemma concat_singletons (t : text) : concat ((λ c, [c]) <$> t) = t.
Proof. induction t as [|c t IH]; [done|]. rewrite fmap_cons. cbn [concat]. by rewrite IH. Qed.

Module SplitterFacts.
Import Splitter.

(** What [re.split] returns: a first piece, then matches and pieces in
    turn; put together again they give the text that was scanned. *)
Lemma re_split_scan_shape sep t skip cur :
  sep ≠ [] →
  ∃ first pairs,
    re_split_scan sep skip cur t = first :: concat ((λ p : text * text, [p.1; p.2]) <$> pairs)
    ∧ first ++ concat ((λ p : text * text, p.1 ++ p.2) <$> pairs) = cur ++ drop skip t.
Proof.
  intros Hsep. revert skip cur.
  induction t as [|c t IH]; intros skip cur.
  - exists cur, []. by rewrite drop_nil.
  - destruct skip as [|k].
    + cbn [re_split_scan].
      destruct (startswith sep (c :: t)) eqn:Hstart.
      * destruct (IH (Nat.pred (length sep)) []) as (first & pairs & Hscan & Hcat).
        exists cur, ((sep, first) :: pairs). split.
        { by rewrite Hscan. }
        cbn [fmap list_fmap concat fst snd]. rewrite <- app_assoc, Hcat.
        apply startswith_app in Hstart.
        destruct sep as [|s sep]; [done|]. simpl in *.
        injection Hstart as -> Ht. by rewrite <- Ht.
      * destruct (IH 0%nat (cur ++ [c])) as (first & pairs & Hscan & Hcat).
        exists first, pairs. split; [done|].
        by rewrite Hcat, <- app_assoc.
    + cbn [re_split_scan]. destruct (IH k cur) as (first & pairs & Hscan & Hcat).
      by exists first, pairs.
Qed.

Lemma pair_up_pairs (pairs : list (text * text)) :
  pair_up (concat ((λ p : text * text, [p.1; p.2]) <$> pairs))
  = Ok ((λ p : text * text, p.1 ++ p.2) <$> pairs).
Proof.
  induction pairs as [|[a b] pairs IH]; [done|].
  cbn [fmap list_fmap concat fst snd app pair_up]. 
  change (list_fmap _ _ ?f pairs) with (f <$> pairs).
  by rewrite IH.
Qed.

Lemma length_pairs_flat (pairs : list (text * text)) :
  length (concat ((λ p : text * text, [p.1; p.2]) <$> pairs)) = (2 * length pairs)%nat.
Proof.
  induction pairs as [|p pairs IH]; [done|].
  rewrite fmap_cons. cbn [concat]. rewrite length_app, IH. simpl. lia.
Qed.

(** The pieces [_split_text_with_regex] returns are not empty and put
    together give the text. *)
Lemma split_text_with_regex_pieces t separator :
  ∃ pieces,
    _split_text_with_regex t separator = Ok pieces
    ∧ concat pieces = t
    ∧ Forall (λ p, p ≠ []) pieces
    ∧ (separator = [] → Forall (λ p, length p = 1%nat) pieces).
Proof.
  unfold _split_text_with_regex.
  destruct (decide (separator = [])) as [->|Hsep].
  - rewrite bool_decide_eq_false_2 by (by intros H; apply H).
    assert (Hone : Forall (λ p : text, length p = 1%nat) ((λ c, [c]) <$> t)).
    { apply Forall_fmap. by apply Forall_true. }
    assert (Hfull : Forall (λ p : text, p ≠ []) ((λ c, [c]) <$> t)).
    { eapply Forall_impl; [exact Hone|]. by intros p Hp ->. }
    cbn [mbind result_bind]. rewrite (filter_nonempty_id _ Hfull).
    eexists. split; [reflexivity|].
    split; [apply concat_singletons|]. by split.
  - rewrite bool_decide_eq_true_2 by done.
    destruct (re_split_scan_shape separator t 0 [] Hsep) as (first & pairs & Hscan & Hcat).
    unfold re_split. rewrite Hscan. cbn [tail].
    rewrite pair_up_pairs. cbn [mbind result_bind].
    assert (Hodd : (len (first :: concat ((λ p : text * text, [p.1; p.2]) <$> pairs)) mod 2 =? 0)
                   = false).
    { unfold len. cbn [length]. rewrite length_pairs_flat.
      apply Z.eqb_neq. rewrite Nat2Z.inj_succ, Nat2Z.inj_mul.
      replace (Z.succ (Z.of_nat 2 * Z.of_nat (length pairs)))
        with (1 + Z.of_nat (length pairs) * 2) by lia.
      rewrite Z_mod_plus_full. done. }
    rewrite Hodd. cbn [getitem]. simpl (getitem _ 0). cbn [mbind result_bind].
    eexists. split; [reflexivity|].
    split; [|split].
    + rewrite concat_filter_nonempty. simpl. by rewrite Hcat.
    + apply Forall_forall. intros p Hp. by apply list_elem_of_filter in Hp as [Hp _].
    + done.
Qed.

Section Small.
Context (chunk_size chunk_overlap : Z).
Context (Hsize : 1 < chunk_size).

(** The length of the pieces of a list, added up. *)
Lemma len_concat_cons (p : text) (l : list text) :
  len (concat (p :: l)) = len p + len (concat l).
Proof. unfold len. simpl. rewrite length_app. lia. Qed.

(** A piece that still fits is appended to the chunk under way. *)
Lemma merge_step_small (docs cur : list text) (d : text) :
  len (concat cur) + len d ≤ chunk_size →
  merge_step chunk_size chunk_overlap [] (docs, cur, len (concat cur)) d
  = Ok (docs, cur ++ [d], len (concat (cur ++ [d]))).
Proof.
  intros Hfit. unfold merge_step. change (len []) with 0.
  replace (if len cur >? 0 then 0 else 0) with 0 by (by destruct (len cur >? 0)).
  destruct (Z.gtb_spec (len (concat cur) + len d + 0) chunk_size) as [?|_]; [lia|].
  cbn [andb mbind result_bind].
  replace (if len (cur ++ [d]) >? 1 then 0 else 0) with 0
    by (by destruct (len (cur ++ [d]) >? 1)).
  do 2 f_equal. unfold len. rewrite concat_app, length_app. simpl.
  rewrite app_nil_r. lia.
Qed.

(** While the pieces seen and the pieces to come fit in one chunk,
    [_merge_splits] only collects them. *)
Lemma merge_loop_small (docs cur rest : list text) :
  len (concat cur) + len (concat rest) ≤ chunk_size →
  for_each (merge_step chunk_size chunk_overlap []) (docs, cur, len (concat cur)) rest
  = Ok (docs, cur ++ rest, len (concat (cur ++ rest))).
Proof.
  revert cur. induction rest as [|d rest IH]; intros cur Hfit.
  - simpl. by rewrite app_nil_r.
  - cbn [for_each]. rewrite len_concat_cons in Hfit.
    assert (Hlen0 : 0 ≤ len (concat rest)) by (unfold len; lia).
    rewrite merge_step_small by lia. cbn [mbind result_bind].
    rewrite IH.
    + by rewrite <- app_assoc.
    + unfold len in *. rewrite concat_app, length_app. simpl. rewrite app_nil_r. lia.
Qed.

Lemma merge_splits_small (splits : list text) :
  len (concat splits) ≤ chunk_size →
  _merge_splits chunk_size chunk_overlap splits [] = Ok (stripped_chunk (concat splits)).
Proof.
  intros Hfit. unfold _merge_splits.
  pose proof (merge_loop_small [] [] splits) as Hloop.
  cbn [concat app] in Hloop. change (len (@nil N)) with 0 in Hloop.
  rewrite Hloop by lia.
  cbn [mbind result_bind]. unfold _join_docs, stripped_chunk.
  rewrite join_nil. by case_bool_decide.
Qed.

(** The loop of [_split_text] keeps pieces shorter than a chunk for the
    merge. *)
Lemma split_loop_small recurse (pieces final good : list text) :
  Forall (λ p, len p < chunk_size) pieces →
  for_each (λ '(final_chunks, _good_splits) s,
      if len s <? chunk_size then Ok (final_chunks, _good_splits ++ [s])
      else
        final_chunks ← flush chunk_size chunk_overlap final_chunks _good_splits;
        match recurse with
        | None => Ok (final_chunks ++ [s], [])
        | Some split_finer =>
            other_info ← split_finer s;
            Ok (final_chunks ++ other_info, [])
        end) (final, good) pieces
  = Ok (final, good ++ pieces).
Proof.
  intros Hsmall. revert good.
  induction Hsmall as [|p pieces Hp _ IH]; intros good.
  - simpl. by rewrite app_nil_r.
  - cbn [for_each].
    destruct (Z.ltb_spec (len p) chunk_size) as [_|?]; [|lia].
    cbn [mbind result_bind]. rewrite IH. by rewrite <- app_assoc.
Qed.

Lemma flush_small (pieces : list text) :
  len (concat pieces) ≤ chunk_size →
  flush chunk_size chunk_overlap [] pieces = Ok (stripped_chunk (concat pieces)).
Proof.
  intros Hfit. unfold flush. case_bool_decide as Hne.
  - by rewrite merge_splits_small.
  - by subst.
Qed.

(** Pieces that are not empty and together no longer than one of them:
    that piece is the only one. *)
Lemma single_piece (pieces : list text) (p : text) :
  Forall (λ q, q ≠ []) pieces →
  p ∈ pieces →
  (length (concat pieces) ≤ length p)%nat →
  pieces = [p].
Proof.
  intros Hfull Hin Hlen.
  apply list_elem_of_split in Hin as (l1 & l2 & ->).
  rewrite concat_app in Hlen. simpl in Hlen. rewrite !length_app in Hlen.
  apply Forall_app in Hfull as [Hl1 Hl2]. apply Forall_cons in Hl2 as [_ Hl2].
  destruct l1 as [|q l1].
  - destruct l2 as [|q l2]; [done|].
    apply Forall_cons in Hl2 as [Hq _]. destruct q; [done|].
    simpl in Hlen. rewrite length_app in Hlen. simpl in Hlen. lia.
  - apply Forall_cons in Hl1 as [Hq _]. destruct q; [done|].
    simpl in Hlen. rewrite length_app in Hlen. simpl in Hlen. lia.
Qed.

(** [_split_text] with a chosen separator, on a text that fits in one
    chunk, when the finer separators (if the text is passed on to them)
    give the stripped text. *)
Lemma split_with_small recurse separator t :
  len t ≤ chunk_size →
  (separator ≠ [] → ∃ finer, recurse = Some finer ∧ finer t = Ok (stripped_chunk t)) →
  split_with chunk_size chunk_overlap recurse separator t = Ok (stripped_chunk t).
Proof.
  intros Hfit Hrec. unfold split_with.
  destruct (split_text_with_regex_pieces t separator)
    as (pieces & -> & Hcat & Hfull & Hchars).
  cbn [mbind result_bind].
  destruct (decide (Forall (λ p, len p < chunk_size) pieces)) as [Hsmall|Hbig].
  - rewrite split_loop_small by done. cbn [mbind result_bind app].
    rewrite flush_small; by rewrite Hcat.
  - apply not_Forall_Exists in Hbig; [|apply _].
    apply Exists_exists in Hbig as (p & Hin & Hp). simpl in Hp.
    assert (Hsep : separator ≠ []).
    { intros ->. specialize (Hchars eq_refl). rewrite Forall_forall in Hchars.
      specialize (Hchars p Hin). unfold len in Hp. lia. }
    destruct (Hrec Hsep) as (finer & -> & Hfiner).
    assert (Hone : pieces = [p]).
    { apply single_piece; [done..|]. rewrite Hcat. unfold len in *. lia. }
    subst pieces. simpl in Hcat. rewrite app_nil_r in Hcat. subst p.
    cbn [for_each]. destruct (Z.ltb_spec (len t) chunk_size) as [?|_]; [lia|].
    unfold flush at 2. rewrite bool_decide_eq_false_2 by (by intros H; apply H).
    cbn [mbind result_bind app]. rewrite Hfiner. cbn [mbind result_bind app].
    unfold flush. by rewrite bool_decide_eq_false_2 by (by intros H; apply H).
Qed.

(** With the empty separator among those to try, the recursion ends at it
    and a text that fits in one chunk comes out stripped. *)
Lemma split_from_small separators fallback t :
  [] ∈ separators →
  len t ≤ chunk_size →
  split_from chunk_size chunk_overlap separators fallback t = Ok (stripped_chunk t).
Proof.
  intros Hempty Hfit. induction separators as [|_s new_separators IH]; [by apply elem_of_nil in Hempty|].
  cbn [split_from]. case_bool_decide as Hs.
  - subst _s. by apply split_with_small.
  - apply elem_of_cons in Hempty as [Hempty|Hempty]; [done|].
    specialize (IH Hempty).
    destruct (contains _s t); [|done].
    apply split_with_small; [done|]. intros _.
    rewrite bool_decide_eq_false_2.
    + by eexists.
    + intros ->. by apply elem_of_nil in Hempty.
Qed.

Lemma split_text_small t :
  len t ≤ chunk_size →
  split_text chunk_size chunk_overlap t = Ok (stripped_chunk t).
Proof.
  intros Hfit. unfold split_text, _split_text.
  change (getitem default_separators (-1)) with (Ok ([] : text)).
  cbn [mbind result_bind]. apply split_from_small; [|done].
  unfold default_separators. set_solver.
Qed.

End Small.
End SplitterFacts.

(** ** Stripping *)

Lemma lstrip_id (t : text) :
  (∀ c, head t = Some c → isspace c = false) → lstrip t = t.
Proof.
  destruct t as [|c t]; [done|]. intros H. simpl. by rewrite (H c).
Qed.

(** A text that neither begins nor ends with white space is its own
    [strip]. *)
Lemma strip_id (t : text) :
  (∀ c, head t = Some c → isspace c = false) →
  (∀ c, last t = Some c → isspace c = false) →
  strip t = t.
Proof.
  intros Hhead Hlast. unfold strip, rstrip. rewrite (lstrip_id t Hhead).
  rewrite lstrip_id; [apply reverse_involutive|].
  intros c Hc. apply Hlast. by rewrite <- head_reverse.
Qed.

(** C2, as the code has it.  A text of at most [chunk_size] (500)
    characters is split into the text without the white space around it,
    as the only chunk, or into no chunk when nothing is left of it (the
    text is empty or all white space).  So a text that is not empty and
    neither begins nor ends with white space comes back as exactly one
    chunk, equal to the text; no overlap is involved. *)
Theorem short_text_is_one_stripped_chunk (t : text) :
  len t ≤ chunk_size →
  Splitter.split_text chunk_size chunk_overlap t = Ok (stripped_chunk t)
  ∧ (t ≠ [] →
     (∀ c, head t = Some c → isspace c = false) →
     (∀ c, last t = Some c → isspace c = false) →
     Splitter.split_text chunk_size chunk_overlap t = Ok [t]).
Proof.
  intros Hfit.
  assert (H : Splitter.split_text chunk_size chunk_overlap t = Ok (stripped_chunk t)).
  { apply SplitterFacts.split_text_small; [done|exact Hfit]. }
  split; [exact H|].
  intros Hne Hhead Hlast. rewrite H. unfold stripped_chunk.
  rewrite (strip_id t Hhead Hlast). by rewrite bool_decide_eq_false_2.
Qed.

Lemma short_text_is_one_stripped_chunk_witness :
  len (str "refund policy") ≤ chunk_size
  ∧ Splitter.split_text chunk_size chunk_overlap (str "refund policy")
    = Ok (stripped_chunk (str "refund policy"))
  ∧ (str "refund policy" ≠ [] →
     (∀ c, head (str "refund policy") = Some c → isspace c = false) →
     (∀ c, last (str "refund policy") = Some c → isspace c = false) →
     Splitter.split_text chunk_size chunk_overlap (str "refund policy")
     = Ok [str "refund policy"]).
Proof.
  assert (H : len (str "refund policy") ≤ chunk_size) by (vm_compute; discriminate).
  split; [exact H|].
  exact (short_text_is_one_stripped_chunk (str "refund policy") H).
Defined.

(** C2, as the spec has it, fails: the empty text has at most 500
    characters and is split into no chunk at all, and the two characters
    of a space followed by [a] are split into the one chunk [a], which is
    not the text. *)
Lemma short_text_is_not_always_one_equal_chunk :
  (len (@nil N) ≤ chunk_size
   ∧ Splitter.split_text chunk_size chunk_overlap [] = Ok []
   ∧ Splitter.split_text chunk_size chunk_overlap [] ≠ Ok [[]])
  ∧ (len (str " a") ≤ chunk_size
     ∧ Splitter.split_text chunk_size chunk_overlap (str " a") = Ok [str "a"]
     ∧ Splitter.split_text chunk_size chunk_overlap (str " a") ≠ Ok [str " a"]).
Proof.
  split; (split; [by vm_compute|]); split; by vm_compute.
Qed.



(** ** JSON files *)

Module JsonFacts.
Import Json.

(** The decoder raises nothing but [JSONDecodeError]. *)
Lemma scanstring_raises fuel acc t e :
  scanstring fuel acc t = Raise e → e = JSONDecodeError.
Proof.
  revert acc t. induction fuel as [|fuel IH]; intros acc t; [done|].
  cbn [scanstring]. intros H.
  repeat (first [ congruence | eapply IH; eassumption | case_match ]).
Qed.

Lemma number_raises t r e : number t = Some r → r = Raise e → e = JSONDecodeError.
Proof.
  unfold number. intros H ->.
  repeat (first [ congruence | case_match ]).
Qed.

Lemma scan_raises fuel :
  (∀ t e, scan_once fuel t = Raise e → e = JSONDecodeError)
  ∧ (∀ values t e, array_loop fuel values t = Raise e → e = JSONDecodeError)
  ∧ (∀ pairs t e, object_loop fuel pairs t = Raise e → e = JSONDecodeError).
Proof.
  induction fuel as [|fuel (IHs & IHa & IHo)]; [done|].
  repeat split.
  - intros t e. cbn [scan_once]. intros H.
    destruct t as [|c t']; [congruence|].
    repeat case_bool_decide.
    + destruct (scanstring (S (length t')) [] t') as [[s rest]| |] eqn:Hs;
        simpl in H; [congruence| |congruence].
      injection H as <-. by eapply scanstring_raises.
    + repeat (first [ congruence | eapply IHo; eassumption | case_match ]).
    + repeat (first [ congruence | eapply IHa; eassumption | case_match ]).
    + repeat (first [ congruence | eapply number_raises; eauto; fail | case_match ]).
  - intros values t e. cbn [array_loop]. intros H.
    destruct (scan_once fuel t) as [[value rest]| |] eqn:Hs; simpl in H;
      [| injection H as <-; by eapply IHs | congruence].
    repeat (first [ congruence | eapply IHa; eassumption | case_match ]).
  - intros pairs t e. cbn [object_loop]. intros H.
    destruct (scanstring (S (length t)) [] t) as [[key rest]| |] eqn:Hk; simpl in H;
      [| injection H as <-; by eapply scanstring_raises | congruence].
    destruct (skip_ws rest) as [|c rest']; [congruence|].
    destruct c; try congruence.
    repeat (first [ congruence | case_match ]); subst.
    all: destruct (scan_once fuel (skip_ws rest')) as [[value rest2]| |] eqn:Hv;
      simpl in H; [| injection H as <-; by eapply IHs | congruence].
    all: repeat (first [ congruence | eapply IHo; eassumption | case_match ]).
Qed.

Lemma loads_raises s e : loads s = Raise e → e = JSONDecodeError.
Proof.
  unfold loads. intros H.
  destruct (startswith [65279%N] s); [congruence|].
  destruct (scan_once (2 * length s + 2) (skip_ws s)) as [[obj rest]| |] eqn:Hs;
    simpl in H.
  - case_bool_decide; congruence.
  - injection H as <-. by eapply (proj1 (scan_raises _)).
  - congruence.
Qed.

End JsonFacts.


(** ** The splitter never raises *)

Module SplitterTotal.
Import Splitter.

Section Total.
Context (chunk_size chunk_overlap : Z).
Context (Hoverlap : 0 ≤ chunk_overlap).

(** Dropping pieces from the front stops at the latest when none is left:
    the index error of [current_doc[0]] cannot happen. *)
Lemma pop_front_ok (_len : Z) (cur : list text) :
  ∃ cur',
    pop_front chunk_size chunk_overlap 0 _len cur (len (concat cur))
    = Ok (cur', len (concat cur'))
    ∧ cur' `suffix_of` cur.
Proof.
  induction cur as [|d0 rest IH].
  - exists []. split; [|done]. cbn [pop_front concat]. change (len (@nil N)) with 0.
    destruct (Z.gtb_spec 0 chunk_overlap) as [?|_]; [lia|].
    cbn [orb]. by rewrite andb_false_r.
  - cbn [pop_front].
    destruct ((len (concat (d0 :: rest)) >? chunk_overlap)
              || (len (concat (d0 :: rest)) + _len
                  + (if len (d0 :: rest) >? 0 then 0 else 0) >? chunk_size)
                 && (len (concat (d0 :: rest)) >? 0)).
    + destruct IH as (cur' & Hpop & Hsuffix).
      replace (len (concat (d0 :: rest))
               - (len d0 + (if len (d0 :: rest) >? 1 then 0 else 0)))
        with (len (concat rest)).
      2:{ rewrite SplitterFacts.len_concat_cons.
          destruct (len (d0 :: rest) >? 1); lia. }
      exists cur'. split; [done|]. by apply suffix_cons_r.
    + by exists (d0 :: rest).
Qed.

Lemma total_after_append (cur : list text) (d : text) :
  len (concat cur) + len d + (if len (cur ++ [d]) >? 1 then 0 else 0)
  = len (concat (cur ++ [d])).
Proof.
  destruct (len (cur ++ [d]) >? 1);
    unfold len; rewrite concat_app, length_app; simpl; rewrite app_nil_r; lia.
Qed.

Lemma merge_step_ok (docs cur : list text) (d : text) :
  ∃ docs' cur',
    merge_step chunk_size chunk_overlap [] (docs, cur, len (concat cur)) d
    = Ok (docs', cur', len (concat cur')).
Proof.
  unfold merge_step. change (len (@nil N)) with 0.
  destruct ((len (concat cur) + len d + (if len cur >? 0 then 0 else 0) >? chunk_size)
            && (len cur >? 0)).
  - destruct (pop_front_ok (len d) cur) as (cur' & -> & _).
    cbn [mbind result_bind]. eexists. exists (cur' ++ [d]).
    by rewrite total_after_append.
  - cbn [mbind result_bind]. eexists. exists (cur ++ [d]).
    by rewrite total_after_append.
Qed.

Lemma merge_loop_ok (splits docs cur : list text) :
  ∃ docs' cur',
    for_each (merge_step chunk_size chunk_overlap []) (docs, cur, len (concat cur)) splits
    = Ok (docs', cur', len (concat cur')).
Proof.
  revert docs cur. induction splits as [|d splits IH]; intros docs cur.
  - by exists docs, cur.
  - cbn [for_each]. destruct (merge_step_ok docs cur d) as (docs1 & cur1 & ->).
    cbn [mbind result_bind]. apply IH.
Qed.

Lemma merge_splits_ok (splits : list text) :
  ∃ docs, _merge_splits chunk_size chunk_overlap splits [] = Ok docs.
Proof.
  unfold _merge_splits.
  destruct (merge_loop_ok splits [] []) as (docs & cur & Hloop).
  cbn [concat] in Hloop. change (len (@nil N)) with 0 in Hloop. rewrite Hloop.
  cbn [mbind result_bind]. destruct (_join_docs cur []); eauto.
Qed.

Lemma flush_ok (final good : list text) :
  ∃ final', flush chunk_size chunk_overlap final good = Ok final'.
Proof.
  unfold flush. case_bool_decide; [|eauto].
  destruct (merge_splits_ok good) as (merged & ->). cbn [mbind result_bind]. eauto.
Qed.

Lemma split_with_ok recurse separator t :
  (∀ finer, recurse = Some finer → ∀ s, ∃ l, finer s = Ok l) →
  ∃ l, split_with chunk_size chunk_overlap recurse separator t = Ok l.
Proof.
  intros Hrec. unfold split_with.
  destruct (SplitterFacts.split_text_with_regex_pieces t separator) as (pieces & -> & _).
  cbn [mbind result_bind].
  assert (Hloop : ∀ final good, ∃ final' good',
    for_each (λ '(final_chunks, _good_splits) s,
      if len s <? chunk_size then Ok (final_chunks, _good_splits ++ [s])
      else
        final_chunks ← flush chunk_size chunk_overlap final_chunks _good_splits;
        match recurse with
        | None => Ok (final_chunks ++ [s], [])
        | Some split_finer =>
            other_info ← split_finer s;
            Ok (final_chunks ++ other_info, [])
        end) (final, good) pieces = Ok (final', good')).
  { induction pieces as [|p pieces IH]; intros final good; [by do 2 eexists|].
    cbn [for_each]. destruct (len p <? chunk_size).
    - cbn [mbind result_bind]. apply IH.
    - destruct (flush_ok final good) as (final1 & ->). cbn [mbind result_bind].
      destruct recurse as [finer|].
      + destruct (Hrec finer eq_refl p) as (other & ->).
        cbn [mbind result_bind]. apply IH.
      + cbn [mbind result_bind]. apply IH. }
  destruct (Hloop [] []) as (final & good & ->). cbn [mbind result_bind].
  apply flush_ok.
Qed.

Lemma split_from_ok separators fallback t :
  ∃ l, split_from chunk_size chunk_overlap separators fallback t = Ok l.
Proof.
  revert t. induction separators as [|_s new_separators IH]; intros t.
  - cbn [split_from]. by apply split_with_ok.
  - cbn [split_from]. case_bool_decide; [by apply split_with_ok|].
    destruct (contains _s t); [|apply IH].
    apply split_with_ok. intros finer Hfiner s.
    case_bool_decide; [done|]. injection Hfiner as <-. apply IH.
Qed.

Lemma split_text_ok t : ∃ chunks, split_text chunk_size chunk_overlap t = Ok chunks.
Proof.
  unfold split_text, _split_text.
  change (getitem default_separators (-1)) with (Ok ([] : text)).
  cbn [mbind result_bind]. apply split_from_ok.
Qed.

End Total.
End SplitterTotal.

(** Once the text of a file is extracted, [process_doc] returns records:
    neither the splitter nor the loop over the chunks raises. *)
Theorem process_doc_returns_after_extraction f file_type file_name doc_text :
  extract_text f file_type = Ok doc_text →
  ∃ chunks,
    Splitter.split_text chunk_size chunk_overlap doc_text = Ok chunks
    ∧ process_doc f file_type file_name
      = Ok (imap (linked_record chunks file_type file_name) chunks).
Proof.
  intros Htext.
  destruct (SplitterTotal.split_text_ok chunk_size chunk_overlap ltac:(done) doc_text)
    as (chunks & Hsplit).
  exists chunks. split; [done|].
  by apply (process_doc_from_chunks _ _ _ doc_text).
Qed.

Lemma process_doc_returns_after_extraction_witness :
  extract_text (text_file letters) (str "txt") = Ok letters
  ∧ ∃ chunks,
      Splitter.split_text chunk_size chunk_overlap letters = Ok chunks
      ∧ process_doc (text_file letters) (str "txt") (str "a.txt")
        = Ok (imap (linked_record chunks (str "txt") (str "a.txt")) chunks).
Proof.
  split; [reflexivity|].
  exact (process_doc_returns_after_extraction (text_file letters) (str "txt") (str "a.txt")
           letters eq_refl).
Defined.

(** ** No chunk is longer than the chunk size *)

Lemma length_lstrip (t : text) : (length (lstrip t) ≤ length t)%nat.
Proof.
  induction t as [|c t IH]; [done|]. simpl. destruct (isspace c); simpl; lia.
Qed.

Lemma len_strip (t : text) : len (strip t) ≤ len t.
Proof.
  unfold len, strip, rstrip. rewrite length_reverse.
  pose proof (length_lstrip (reverse (lstrip t))) as H1.
  rewrite length_reverse in H1. pose proof (length_lstrip t). lia.
Qed.

Module SplitterBound.
Import Splitter.

Section Bound.
Context (chunk_size chunk_overlap : Z).
Context (Hsize : 1 < chunk_size) (Hoverlap : 0 ≤ chunk_overlap).

Local Abbreviation fits := (fits chunk_size).

Lemma join_docs_fits (cur : list text) (doc : text) :
  len (concat cur) ≤ chunk_size → _join_docs cur [] = Some doc → fits doc.
Proof.
  unfold _join_docs, fits. rewrite join_nil. intros Hcur.
  case_bool_decide as Hne; [done|]. intros [= <-].
  pose proof (len_strip (concat cur)). split; [|lia].
  unfold len. destruct (strip (concat cur)); [done|]. simpl. lia.
Qed.

(** When the loop that drops pieces from the front stops, what is left
    together with the next piece fits in a chunk, or nothing is left. *)
Lemma pop_front_exit (_len : Z) (cur : list text) :
  ∃ cur',
    pop_front chunk_size chunk_overlap 0 _len cur (len (concat cur))
    = Ok (cur', len (concat cur'))
    ∧ (len (concat cur') + _len ≤ chunk_size ∨ len (concat cur') ≤ 0).
Proof.
  induction cur as [|d0 rest IH].
  - exists []. cbn [pop_front concat]. change (len (@nil N)) with 0.
    destruct (Z.gtb_spec 0 chunk_overlap) as [?|_]; [lia|].
    cbn [orb]. rewrite andb_false_r. split; [done|]. by right.
  - cbn [pop_front].
    replace (if len (d0 :: rest) >? 0 then 0 else 0) with 0
      by (by destruct (len (d0 :: rest) >? 0)).
    destruct (len (concat (d0 :: rest)) >? chunk_overlap) eqn:Hover.
    + cbn [orb]. destruct IH as (cur' & Hpop & Hexit).
      replace (len (concat (d0 :: rest))
               - (len d0 + (if len (d0 :: rest) >? 1 then 0 else 0)))
        with (len (concat rest)).
      2:{ rewrite SplitterFacts.len_concat_cons.
          destruct (len (d0 :: rest) >? 1); lia. }
      by exists cur'.
    + cbn [orb].
      destruct (Z.gtb_spec (len (concat (d0 :: rest)) + _len + 0) chunk_size) as [Hbig|Hfit];
        destruct (Z.gtb_spec (len (concat (d0 :: rest))) 0) as [Hpos|Hzero]; cbn [andb].
      * destruct IH as (cur' & Hpop & Hexit).
        replace (len (concat (d0 :: rest))
                 - (len d0 + (if len (d0 :: rest) >? 1 then 0 else 0)))
          with (len (concat rest)).
        2:{ rewrite SplitterFacts.len_concat_cons.
            destruct (len (d0 :: rest) >? 1); lia. }
        by exists cur'.
      * exists (d0 :: rest). split; [done|]. by right.
      * exists (d0 :: rest). split; [done|]. left. lia.
      * exists (d0 :: rest). split; [done|]. by right.
Qed.

Lemma merge_step_fits (docs cur : list text) (d : text) :
  Forall fits docs →
  len (concat cur) ≤ chunk_size →
  len d ≤ chunk_size →
  ∃ docs' cur',
    merge_step chunk_size chunk_overlap [] (docs, cur, len (concat cur)) d
    = Ok (docs', cur', len (concat cur'))
    ∧ Forall fits docs'
    ∧ len (concat cur') ≤ chunk_size.
Proof.
  intros Hdocs Hcur Hd. unfold merge_step. change (len (@nil N)) with 0.
  assert (Hcat : ∀ l : list text, len (concat (l ++ [d])) = len (concat l) + len d).
  { intros l. unfold len. rewrite concat_app, length_app. simpl.
    rewrite app_nil_r. lia. }
  assert (Hnn : ∀ l : list text, 0 ≤ len (concat l)) by (intros l; unfold len; lia).
  replace (if len cur >? 0 then 0 else 0) with 0 by (by destruct (len cur >? 0)).
  destruct (Z.gtb_spec (len (concat cur) + len d + 0) chunk_size) as [Hbig|Hfit];
    destruct (Z.gtb_spec (len cur) 0) as [Hpos|Hzero]; cbn [andb].
  - destruct (pop_front_exit (len d) cur) as (cur' & -> & Hexit).
    cbn [mbind result_bind]. eexists. exists (cur' ++ [d]).
    rewrite SplitterTotal.total_after_append. split; [done|]. split.
    + destruct (_join_docs cur []) as [doc|] eqn:Hdoc; [|done].
      apply Forall_app. split; [done|]. apply Forall_singleton.
      by eapply join_docs_fits.
    + rewrite Hcat. specialize (Hnn cur'). lia.
  - cbn [mbind result_bind]. eexists. exists (cur ++ [d]).
    rewrite SplitterTotal.total_after_append. split; [done|]. split; [done|].
    assert (cur = []) as -> by (destruct cur; [done|unfold len in Hzero; simpl in Hzero; lia]).
    rewrite Hcat. cbn [concat]. change (len (@nil N)) with 0. lia.
  - cbn [mbind result_bind]. eexists. exists (cur ++ [d]).
    rewrite SplitterTotal.total_after_append. split; [done|]. split; [done|].
    rewrite Hcat. lia.
  - cbn [mbind result_bind]. eexists. exists (cur ++ [d]).
    rewrite SplitterTotal.total_after_append. split; [done|]. split; [done|].
    rewrite Hcat. lia.
Qed.

Lemma merge_loop_fits (splits docs cur : list text) :
  Forall (λ d, len d ≤ chunk_size) splits →
  Forall fits docs →
  len (concat cur) ≤ chunk_size →
  ∃ docs' cur',
    for_each (merge_step chunk_size chunk_overlap []) (docs, cur, len (concat cur)) splits
    = Ok (docs', cur', len (concat cur'))
    ∧ Forall fits docs'
    ∧ len (concat cur') ≤ chunk_size.
Proof.
  intros Hsplits. revert docs cur.
  induction Hsplits as [|d splits Hd _ IH]; intros docs cur Hdocs Hcur.
  - by exists docs, cur.
  - cbn [for_each].
    destruct (merge_step_fits docs cur d Hdocs Hcur Hd) as (docs1 & cur1 & -> & Hdocs1 & Hcur1).
    cbn [mbind result_bind]. by apply IH.
Qed.

Lemma merge_splits_fits (splits : list text) :
  Forall (λ d, len d ≤ chunk_size) splits →
  ∃ docs, _merge_splits chunk_size chunk_overlap splits [] = Ok docs ∧ Forall fits docs.
Proof.
  intros Hsplits. unfold _merge_splits.
  destruct (merge_loop_fits splits [] [] Hsplits) as (docs & cur & Hloop & Hdocs & Hcur).
  { done. }
  { cbn [concat]. change (len (@nil N)) with 0. lia. }
  cbn [concat] in Hloop. change (len (@nil N)) with 0 in Hloop. rewrite Hloop.
  cbn [mbind result_bind].
  destruct (_join_docs cur []) as [doc|] eqn:Hdoc; [|by eexists].
  eexists. split; [done|]. apply Forall_app. split; [done|].
  apply Forall_singleton. by eapply join_docs_fits.
Qed.

Lemma flush_fits (final good : list text) :
  Forall fits final →
  Forall (λ d, len d ≤ chunk_size) good →
  ∃ final', flush chunk_size chunk_overlap final good = Ok final' ∧ Forall fits final'.
Proof.
  intros Hfinal Hgood. unfold flush. case_bool_decide; [|by eexists].
  destruct (merge_splits_fits good Hgood) as (merged & -> & Hmerged).
  cbn [mbind result_bind]. eexists. split; [done|]. by apply Forall_app.
Qed.

Lemma split_with_fits recurse separator t :
  (separator ≠ [] →
   ∃ finer, recurse = Some finer ∧ ∀ s, ∃ l, finer s = Ok l ∧ Forall fits l) →
  ∃ l, split_with chunk_size chunk_overlap recurse separator t = Ok l ∧ Forall fits l.
Proof.
  intros Hrec. unfold split_with.
  destruct (SplitterFacts.split_text_with_regex_pieces t separator)
    as (pieces & -> & _ & _ & Hchars).
  cbn [mbind result_bind].
  destruct (decide (separator = [])) as [Hsep|Hsep].
  - assert (Hsmall : Forall (λ p, len p < chunk_size) pieces).
    { eapply Forall_impl; [exact (Hchars Hsep)|]. intros p Hp. simpl in Hp. unfold len. lia. }
    rewrite (SplitterFacts.split_loop_small chunk_size chunk_overlap) by done.
    cbn [mbind result_bind app]. apply flush_fits; [done|].
    eapply Forall_impl; [exact Hsmall|]. intros p Hp. simpl in Hp. lia.
  - destruct (Hrec Hsep) as (finer & -> & Hfiner).
    assert (Hloop : ∀ final good,
      Forall fits final → Forall (λ d, len d ≤ chunk_size) good →
      ∃ final' good',
        for_each (λ '(final_chunks, _good_splits) s,
          if len s <? chunk_size then Ok (final_chunks, _good_splits ++ [s])
          else
            final_chunks ← flush chunk_size chunk_overlap final_chunks _good_splits;
            other_info ← finer s;
            Ok (final_chunks ++ other_info, [])) (final, good) pieces
        = Ok (final', good')
        ∧ Forall fits final' ∧ Forall (λ d, len d ≤ chunk_size) good').
    { clear Hchars. induction pieces as [|p pieces IH]; intros final good Hfinal Hgood;
        [by do 2 eexists|].
      cbn [for_each]. destruct (Z.ltb_spec (len p) chunk_size) as [Hp|Hp].
      - cbn [mbind result_bind]. apply IH; [done|].
        apply Forall_app. split; [done|]. apply Forall_singleton. lia.
      - destruct (flush_fits final good Hfinal Hgood) as (final1 & -> & Hfinal1).
        cbn [mbind result_bind].
        destruct (Hfiner p) as (other & -> & Hother).
        cbn [mbind result_bind]. apply IH; [|done]. by apply Forall_app. }
    destruct (Hloop [] []) as (final & good & -> & Hfinal & Hgood); [done..|].
    cbn [mbind result_bind]. by apply flush_fits.
Qed.

Lemma split_from_fits separators fallback t :
  [] ∈ separators →
  ∃ l, split_from chunk_size chunk_overlap separators fallback t = Ok l ∧ Forall fits l.
Proof.
  intros Hempty. revert t.
  induction separators as [|_s new_separators IH]; intros t;
    [by apply elem_of_nil in Hempty|].
  cbn [split_from]. case_bool_decide as Hs.
  - apply split_with_fits. by intros [].
  - apply elem_of_cons in Hempty as [Hempty|Hempty]; [done|].
    specialize (IH Hempty).
    destruct (contains _s t); [|apply IH].
    apply split_with_fits. intros _.
    rewrite bool_decide_eq_false_2.
    + by eexists.
    + intros ->. by apply elem_of_nil in Hempty.
Qed.

Lemma split_text_fits t :
  ∃ chunks, split_text chunk_size chunk_overlap t = Ok chunks ∧ Forall fits chunks.
Proof.
  unfold split_text, _split_text.
  change (getitem default_separators (-1)) with (Ok ([] : text)).
  cbn [mbind result_bind]. apply split_from_fits.
  unfold default_separators. set_solver.
Qed.

End Bound.
End SplitterBound.

(** ** Further properties of the service *)

(** Every chunk the splitter returns for a text is not empty and has at
    most [chunk_size] (500) characters, and so has the text of every record
    of a document. *)
Theorem every_chunk_fits f file_type file_name rows :
  process_doc f file_type file_name = Ok rows →
  ∀ row, row ∈ rows →
    ∃ chunk, row !! "text" = Some (VStr chunk) ∧ 0 < len chunk ≤ chunk_size.
Proof.
  intros Hrows row Hrow.
  destruct (process_doc_ok _ _ _ _ Hrows) as (doc_text & chunks & _ & Hsplit & ->).
  destruct (SplitterBound.split_text_fits chunk_size chunk_overlap
              ltac:(done) ltac:(done) doc_text) as (chunks' & Hsplit' & Hfits).
  rewrite Hsplit in Hsplit'. injection Hsplit' as <-.
  apply list_elem_of_lookup in Hrow as (i & Hi).
  rewrite list_lookup_imap in Hi.
  destruct (chunks !! i) as [chunk|] eqn:Hchunk; [|done].
  injection Hi as <-. exists chunk. split.
  - exact (linked_record_text _ _ _ _ _).
  - rewrite Forall_forall in Hfits. apply Hfits.
    by eapply list_elem_of_lookup_2.
Qed.

Lemma every_chunk_fits_witness :
  process_doc (text_file letters) (str "txt") (str "a.txt")
  = Ok (imap (linked_record letters_chunks (str "txt") (str "a.txt")) letters_chunks)
  ∧ ∀ row, row ∈ imap (linked_record letters_chunks (str "txt") (str "a.txt")) letters_chunks →
      ∃ chunk, row !! "text" = Some (VStr chunk) ∧ 0 < len chunk ≤ chunk_size.
Proof.
  assert (H : process_doc (text_file letters) (str "txt") (str "a.txt")
              = Ok (imap (linked_record letters_chunks (str "txt") (str "a.txt"))
                      letters_chunks))
    by (apply (process_doc_from_chunks _ _ _ letters); vm_compute; reflexivity).
  split; [exact H|].
  exact (every_chunk_fits _ _ _ _ H).
Defined.



(** The text of a DOCX file is its paragraph texts joined by single
    spaces, and the text of a TXT file is what reading it as UTF-8 gives;
    a type other than the four supported ones gives the empty text and so
    no record. *)
Theorem docx_txt_and_other_types :
  (∀ f paragraphs, docx_paragraphs f = Ok paragraphs →
     extract_text f (str "docx") = Ok (join [space] paragraphs))
  ∧ (∀ f, extract_text f (str "txt") = read_utf8 f)
  ∧ (∀ f file_type file_name, file_type ∉ supported →
       extract_text f file_type = Ok []
       ∧ process_doc f file_type file_name = Ok []).
Proof.
  split; [|split].
  - intros f paragraphs Hdocx. unfold extract_text.
    change (text_eqb (str "docx") (str "pdf")) with false.
    change (text_eqb (str "docx") (str "docx")) with true.
    cbv iota. by rewrite Hdocx.
  - intros f. unfold extract_text.
    change (text_eqb (str "txt") (str "pdf")) with false.
    change (text_eqb (str "txt") (str "docx")) with false.
    change (text_eqb (str "txt") (str "json")) with false.
    by change (text_eqb (str "txt") (str "txt")) with true.
  - intros f file_type file_name Hout.
    assert (Htext : extract_text f file_type = Ok []).
    { unfold extract_text, text_eqb. unfold supported in Hout.
      rewrite !not_elem_of_cons in Hout. destruct Hout as (H1 & H2 & H3 & H4 & _).
      by rewrite !bool_decide_eq_false_2. }
    split; [exact Htext|].
    unfold process_doc. rewrite Htext. by vm_compute.
Qed.

(** An upload without a usable file name (no attribute, [None], or the
    empty string) is answered with HTTP status 400 before anything is done
    to the store. *)
Theorem missing_filename_is_refused_untouched upl w :
  truthy (py_or (attr_filename upl) (attr_name upl)) = false →
  upload upl w
  = (Raise (HTTPException 400 (str "File does not have a valid filename")), w).
Proof. apply upload_no_filename. Qed.

Lemma missing_filename_is_refused_untouched_witness :
  truthy (py_or (attr_filename {| attr_filename := Some []; attr_name := None;
                                  file := text_file [] |})
                (attr_name {| attr_filename := Some []; attr_name := None;
                              file := text_file [] |})) = false
  ∧ upload {| attr_filename := Some []; attr_name := None; file := text_file [] |}
      small_world
    = (Raise (HTTPException 400 (str "File does not have a valid filename")), small_world).
Proof.
  split; [reflexivity|].
  exact (missing_filename_is_refused_untouched
           {| attr_filename := Some []; attr_name := None; file := text_file [] |}
           small_world eq_refl).
Defined.

(** ** Reading back what [json.dumps] wrote *)

Module JsonRoundTrip.
Import Json.

Lemma hexval_hexdigit (n : N) : (n < 16)%N → hexval (hexdigit n) = Some n.
Proof.
  intros Hn.
  assert (n = 0 ∨ n = 1 ∨ n = 2 ∨ n = 3 ∨ n = 4 ∨ n = 5 ∨ n = 6 ∨ n = 7 ∨ n = 8
          ∨ n = 9 ∨ n = 10 ∨ n = 11 ∨ n = 12 ∨ n = 13 ∨ n = 14 ∨ n = 15)%N as H by lia.
  repeat (destruct H as [->|H]; [reflexivity|]). by subst.
Qed.

(** The four digits of [u_escape] read back as the number. *)
Lemma hex4_u_escape (x : N) (rest : text) :
  (x < 0x10000)%N →
  ∃ h3 h2 h1 h0,
    u_escape x = [92%N; 117%N; h3; h2; h1; h0]
    ∧ hex4 (h3 :: h2 :: h1 :: h0 :: rest) = Some (x, rest).
Proof.
  intros Hx. unfold u_escape. do 4 eexists. split; [reflexivity|].
  unfold hex4.
  rewrite !hexval_hexdigit by (apply N.mod_lt; done).
  cbn [mbind option_bind]. do 2 f_equal.
  zify. Z.to_euclidean_division_equations. lia.
Qed.

(** Bitwise or with a number below the lowest set bit is addition. *)
Lemma lor_low (a y : N) (k : N) :
  N.land a (N.ones k) = 0%N → (y < 2 ^ k)%N → N.lor a y = (a + y)%N.
Proof.
  intros Ha Hy.
  assert (Hdisjoint : N.land a y = 0%N).
  { rewrite <- (N.mod_small y (2 ^ k)) by done.
    rewrite <- N.land_ones, (N.land_comm y), N.land_assoc, Ha. apply N.land_0_l. }
  by rewrite <- N.lxor_lor, N.add_nocarry_lxor.
Qed.

(** The two halves of a surrogate pair, and the code point read back. *)
Lemma surrogate_pair (c : N) :
  (0x10000 ≤ c)%N → (c < 0x110000)%N →
  let n := (c - 0x10000)%N in
  let s1 := N.lor 0xd800 (N.land (N.shiftr n 10) 0x3ff) in
  let s2 := N.lor 0xdc00 (N.land n 0x3ff) in
  (0xd800 ≤ s1 ∧ s1 ≤ 0xdbff)%N
  ∧ (0xdc00 ≤ s2 ∧ s2 ≤ 0xdfff)%N
  ∧ (0x10000 + N.lor (N.shiftl (s1 - 0xd800) 10) (s2 - 0xdc00))%N = c.
Proof.
  intros Hlow Hhigh n s1 s2.
  assert (Hhi : (N.land (N.shiftr n 10) 0x3ff = n / 1024)%N).
  { change 0x3ff%N with (N.ones 10). rewrite N.land_ones, N.shiftr_div_pow2.
    change (2 ^ 10)%N with 1024%N. apply N.mod_small. subst n.
    zify. Z.to_euclidean_division_equations. lia. }
  assert (Hlo : (N.land n 0x3ff = n mod 1024)%N).
  { change 0x3ff%N with (N.ones 10). by rewrite N.land_ones. }
  assert (H1 : s1 = (0xd800 + n / 1024)%N).
  { subst s1. rewrite Hhi. apply (lor_low _ _ 10); [done|].
    change (2 ^ 10)%N with 1024%N. subst n.
    zify. Z.to_euclidean_division_equations. lia. }
  assert (H2 : s2 = (0xdc00 + n mod 1024)%N).
  { subst s2. rewrite Hlo. apply (lor_low _ _ 10); [done|].
    change (2 ^ 10)%N with 1024%N. by apply N.mod_lt. }
  rewrite H1, H2.
  replace (0xd800 + n / 1024 - 0xd800)%N with (n / 1024)%N by lia.
  replace (0xdc00 + n mod 1024 - 0xdc00)%N with (n mod 1024)%N by lia.
  rewrite N.shiftl_mul_pow2. change (2 ^ 10)%N with 1024%N.
  rewrite (lor_low _ _ 10).
  - subst n. repeat split; zify; Z.to_euclidean_division_equations; lia.
  - rewrite N.land_ones. change (2 ^ 10)%N with 1024%N. by apply N.Div0.mod_mul.
  - change (2 ^ 10)%N with 1024%N. by apply N.mod_lt.
Qed.

(** One character: what [escape_char] writes for it, [scanstring] reads
    back as that character in one round. *)
Lemma scanstring_escape_char (c : char) (fuel : nat) (acc rest : text) :
  scalar c →
  scanstring (S fuel) acc (escape_char c ++ rest) = scanstring fuel (acc ++ [c]) rest.
Proof.
  intros Hc. unfold escape_char.
  repeat (case_bool_decide; [subst c; reflexivity|]).
  destruct ((32 <=? c) && (c <=? 126))%N eqn:Hprint.
  { apply andb_prop in Hprint as [Hge Hle]. apply N.leb_le in Hge.
    cbn [scanstring app].
    rewrite !bool_decide_eq_false_2 by done.
    destruct (N.ltb_spec c 32) as [?|_]; [lia|]. done. }
  destruct (N.ltb_spec c 0x10000) as [Hbmp|Hastral].
  - destruct (hex4_u_escape c rest Hbmp) as (h3 & h2 & h1 & h0 & -> & Hhex).
    cbn [scanstring app].
    change (bool_decide (92%N = 34%N)) with false.
    change (bool_decide (92%N = 92%N)) with true.
    change (bool_decide (117%N = 117%N)) with true.
    cbv iota. rewrite Hhex.
    replace ((55296 <=? c) && (c <=? 56319))%N with false; [done|].
    symmetry. apply andb_false_iff. unfold scalar in Hc.
    destruct Hc as [Hc|[Hc _]]; [left|right].
    + apply N.leb_gt. lia.
    + apply N.leb_gt. lia.
  - assert (Hmax : (c < 0x110000)%N) by (unfold scalar in Hc; lia).
    destruct (surrogate_pair c Hastral Hmax) as ((Hs1a & Hs1b) & (Hs2a & Hs2b) & Hjoin).
    set (s1 := N.lor 0xd800 (N.land (N.shiftr (c - 0x10000) 10) 0x3ff)) in *.
    set (s2 := N.lor 0xdc00 (N.land (c - 0x10000) 0x3ff)) in *.
    destruct (hex4_u_escape s1 (u_escape s2 ++ rest)) as (a3 & a2 & a1 & a0 & -> & Hhex1);
      [lia|].
    destruct (hex4_u_escape s2 rest) as (b3 & b2 & b1 & b0 & Hesc2 & Hhex2); [lia|].
    rewrite <- app_assoc. cbn [scanstring app].
    change (bool_decide (92%N = 34%N)) with false.
    change (bool_decide (92%N = 92%N)) with true.
    change (bool_decide (117%N = 117%N)) with true.
    cbv iota. rewrite Hhex1, Hesc2.
    destruct (N.leb_spec 55296 s1) as [_|?]; [|lia].
    destruct (N.leb_spec s1 56319) as [_|?]; [|lia].
    cbn [andb startswith app drop].
    change (bool_decide (92%N = 92%N)) with true.
    change (bool_decide (117%N = 117%N)) with true.
    cbn [andb]. rewrite Hhex2.
    destruct (N.leb_spec 56320 s2) as [_|?]; [|lia].
    destruct (N.leb_spec s2 57343) as [_|?]; [|lia].
    cbn [andb]. by rewrite Hjoin.
Qed.

Lemma escape_char_nonempty (c : char) : escape_char c ≠ [].
Proof.
  unfold escape_char, u_escape. repeat case_match; done.
Qed.

(** A string: [scanstring] reads back what [encode_basestring_ascii] wrote
    after the opening quote. *)
Lemma scanstring_encoded (s : text) (fuel : nat) (acc rest : text) :
  Forall scalar s →
  (length s < fuel)%nat →
  scanstring fuel acc (concat (escape_char <$> s) ++ 34%N :: rest) = Ok (acc ++ s, rest).
Proof.
  intros Hs. revert fuel acc.
  induction Hs as [|c s Hc _ IH]; intros fuel acc Hfuel.
  - destruct fuel as [|fuel]; [simpl in Hfuel; lia|].
    cbn. by rewrite app_nil_r.
  - destruct fuel as [|fuel]; [simpl in Hfuel; lia|].
    rewrite fmap_cons. cbn [concat]. rewrite <- app_assoc.
    rewrite scanstring_escape_char by done.
    rewrite IH by (simpl in Hfuel; lia). by rewrite <- app_assoc.
Qed.

Lemma length_escaped (s : text) : (length s ≤ length (concat (escape_char <$> s)))%nat.
Proof.
  induction s as [|c s IH]; [done|].
  rewrite fmap_cons. cbn [concat]. rewrite length_app. simpl.
  pose proof (escape_char_nonempty c). destruct (escape_char c); [done|]. simpl. lia.
Qed.

(** *** Numbers *)

Lemma str_app (a b : string) : str (a +:+ b) = str a ++ str b.
Proof.
  induction a as [|c a IH]; [done|].
  unfold str in *. simpl. f_equal. exact IH.
Qed.

Lemma N_of_pretty_char (d : N) :
  (d < 10)%N → Ascii.N_of_ascii (pretty_N_char d) = (48 + d)%N.
Proof.
  intros Hd.
  assert (d = 0 ∨ d = 1 ∨ d = 2 ∨ d = 3 ∨ d = 4 ∨ d = 5 ∨ d = 6 ∨ d = 7 ∨ d = 8
          ∨ d = 9)%N as H by lia.
  repeat (destruct H as [->|H]; [reflexivity|]). by subst.
Qed.

Lemma str_digit (d : N) (s : string) :
  (d < 10)%N → str (String (pretty_N_char d) s) = (48 + d)%N :: str s.
Proof. intros Hd. unfold str. simpl. by rewrite N_of_pretty_char. Qed.

(** Reading the digits that [pretty] wrote for [x] in front of [s] shifts
    the number read so far by as many decimal places and adds [x]. *)
Lemma digits_pretty_go (x : N) :
  ∃ k : Z, 0 ≤ k ∧ ∀ (s : string) (acc : Z) (rest : text),
    digits acc (str (pretty_N_go x s) ++ rest)
    = digits (acc * 10 ^ k + Z.of_N x) (str s ++ rest).
Proof.
  induction (N.lt_wf_0 x) as [x _ IH].
  destruct (decide (x = 0%N)) as [->|Hpos].
  - exists 0. split; [done|]. intros s acc rest.
    rewrite pretty_N_go_0. f_equal. lia.
  - destruct (IH (x / 10)%N) as (k & Hk & Hread).
    { apply N.div_lt; lia. }
    exists (k + 1). split; [lia|]. intros s acc rest.
    rewrite pretty_N_go_step by lia. rewrite Hread.
    rewrite str_digit by (apply N.mod_lt; done).
    cbn [app digits]. unfold is_digit.
    assert (Hd : (x mod 10 < 10)%N) by (apply N.mod_lt; done).
    assert (Hx : (x = 10 * (x / 10) + x mod 10)%N) by (by apply N.div_mod).
    remember (x mod 10)%N as d eqn:Hdm. remember (x / 10)%N as q eqn:Hq.
    destruct (N.leb_spec 48 (48 + d)) as [_|?]; [|lia].
    destruct (N.leb_spec (48 + d) 57) as [_|?]; [|lia].
    cbn [andb]. f_equal. rewrite Z.pow_add_r, Z.pow_1_r by lia. lia.
Qed.

(** What [pretty] writes for a positive number starts with a digit other
    than zero. *)
Lemma pretty_go_head (x : N) (s : string) :
  (0 < x)%N →
  ∃ d t, str (pretty_N_go x s) = d :: t ∧ is_digit d = true ∧ d ≠ 48%N.
Proof.
  revert s. induction (N.lt_wf_0 x) as [x _ IH]. intros s Hpos.
  rewrite pretty_N_go_step by done.
  destruct (decide (x / 10 = 0)%N) as [Hsmall|Hbig].
  - rewrite Hsmall, pretty_N_go_0.
    assert (Hd : (x mod 10 < 10)%N) by (apply N.mod_lt; done).
    rewrite str_digit by done. do 2 eexists. split; [reflexivity|].
    assert (Hx : (x mod 10 = x)%N).
    { pose proof (N.div_mod x 10 ltac:(done)) as Hdm. rewrite Hsmall in Hdm. lia. }
    rewrite Hx in *. split; [|lia]. unfold is_digit.
    destruct (N.leb_spec 48 (48 + x)) as [_|?]; [|lia].
    destruct (N.leb_spec (48 + x) 57) as [_|?]; [done|lia].
  - apply IH; [apply N.div_lt; lia|by apply N.neq_0_lt_0].
Qed.

Lemma closes_not_digit (acc : Z) (rest : text) :
  closes rest → digits acc rest = (acc, rest) ∧ float_tail rest = false.
Proof.
  destruct rest as [|c rest]; [done|]. simpl.
  intros [-> | [-> | ->]]; split; try reflexivity; by destruct rest.
Qed.

(** A number: [number] reads back what [pretty] wrote. *)
Lemma number_pretty (n : Z) (rest : text) :
  closes rest →
  number (str (pretty n) ++ rest) = Some (Ok (JInt n, rest))
  ∧ ∃ d t, str (pretty n) = d :: t ∧ (is_digit d = true ∨ d = 45%N).
Proof.
  intros Hrest. destruct (closes_not_digit 0 rest Hrest) as [_ Hfloat].
  destruct n as [|p|p].
  - split; [|by exists 48%N, []; split; [|left]].
    change (str (pretty 0)) with [48%N]. unfold number. cbn [app].
    change (is_digit 48%N) with true. cbv iota.
    change (bool_decide (48%N = 48%N)) with true. cbv iota. by rewrite Hfloat.
  - change (pretty (Z.pos p)) with (pretty_N_go (N.pos p) "").
    destruct (pretty_go_head (N.pos p) "") as (d & t & Hhead & Hdigit & Hnz); [lia|].
    split; [|by exists d, t; split; [|left]].
    destruct (digits_pretty_go (N.pos p)) as (k & _ & Hread).
    specialize (Hread "" 0 rest). rewrite Hhead in Hread |- *.
    unfold number. cbn [app] in Hread |- *.
    assert (Hminus : d ≠ 45%N).
    { intros ->. done. }
    destruct d as [|d]; [done|]. 
    replace (match N.pos d :: t ++ rest with
             | 45%N :: t1 => (true, t1)
             | _ => (false, N.pos d :: t ++ rest)
             end) with (false, N.pos d :: t ++ rest).
    2:{ destruct d as [d|d|]; try done. repeat (destruct d as [d|d|]; try done). }
    rewrite Hdigit. rewrite bool_decide_eq_false_2 by done.
    rewrite Hread. change (str "" ++ rest) with rest.
    destruct (closes_not_digit (0 * 10 ^ k + Z.of_N (N.pos p)) rest Hrest) as [-> _].
    rewrite Hfloat. repeat f_equal; lia.
  - change (pretty (Z.neg p)) with ("-" +:+ pretty_N_go (N.pos p) "").
    rewrite str_app. change (str "-") with [45%N].
    split; [|by exists 45%N, (str (pretty_N_go (N.pos p) "")); split; [|right]].
    destruct (pretty_go_head (N.pos p) "") as (d & t & Hhead & Hdigit & Hnz); [lia|].
    destruct (digits_pretty_go (N.pos p)) as (k & _ & Hread).
    specialize (Hread "" 0 rest). rewrite Hhead in Hread |- *.
    unfold number. cbn [app] in Hread |- *.
    rewrite Hdigit. rewrite bool_decide_eq_false_2 by done.
    rewrite Hread. change (str "" ++ rest) with rest.
    destruct (closes_not_digit (0 * 10 ^ k + Z.of_N (N.pos p)) rest Hrest) as [-> _].
    rewrite Hfloat. repeat f_equal; lia.
Qed.

(** *** Arrays and objects *)

Lemma dumps_arr_cons (x : json) (items : list json) (rest : text) :
  dumps (JArr (x :: items)) ++ rest = 91%N :: dumps x ++ arr_tail items rest.
Proof.
  cbn [dumps]. change (str "[") with [91%N]. change (str "]") with [93%N].
  cbn [app]. f_equal. rewrite <- app_assoc.
  revert x. induction items as [|y items IH]; intros x; [done|].
  rewrite (fmap_cons dumps x), (fmap_cons dumps y), join_cons_cons. cbn [arr_tail].
  rewrite <- (fmap_cons dumps y items), <- !app_assoc.
  do 2 f_equal. apply IH.
Qed.

Lemma dumps_obj_cons (kv : text * json) (pairs : list (text * json)) (rest : text) :
  dumps (JObj (kv :: pairs)) ++ rest
  = 123%N :: encode_basestring_ascii kv.1 ++ str ": " ++ dumps kv.2 ++ obj_tail pairs rest.
Proof.
  cbn [dumps]. change (str "{") with [123%N]. change (str "}") with [125%N].
  cbn [app]. f_equal. rewrite <- app_assoc.
  revert kv. induction pairs as [|kv' pairs IH]; intros kv.
  - cbn [fmap list_fmap join obj_tail]. by rewrite <- !app_assoc.
  - set (f := λ kv : text * json, encode_basestring_ascii kv.1 ++ str ": " ++ dumps kv.2).
    rewrite (fmap_cons f kv), (fmap_cons f kv'), join_cons_cons. cbn [obj_tail].
    rewrite <- (fmap_cons f kv' pairs). subst f. cbn beta.
    rewrite <- !app_assoc. do 4 f_equal. rewrite IH. by rewrite <- ?app_assoc.
Qed.

Lemma starter_facts (c : char) :
  starter c →
  is_ws c = false ∧ c ≠ 93%N ∧ c ≠ 125%N ∧ c ≠ 65279%N.
Proof.
  unfold starter, is_digit. intros H.
  repeat (destruct H as [->|H]; [done|]).
  apply andb_prop in H as [H1 H2]. apply N.leb_le in H1, H2.
  unfold is_ws. rewrite !bool_decide_eq_false_2 by lia. repeat split; lia.
Qed.

Lemma dumps_head (v : json) : ∃ c t, dumps v = c :: t ∧ starter c.
Proof.
  unfold starter. destruct v as [|[]|n|s|items|pairs]; cbn [dumps].
  - exists 110%N. eexists. split; [reflexivity|]. tauto.
  - exists 116%N. eexists. split; [reflexivity|]. tauto.
  - exists 102%N. eexists. split; [reflexivity|]. tauto.
  - destruct (number_pretty n [] I) as (_ & d & t & -> & [Hd| ->]);
      exists d, t || exists 45%N, t; (split; [reflexivity|]); tauto.
  - exists 34%N. eexists. split; [reflexivity|]. tauto.
  - exists 91%N. eexists. split; [reflexivity|]. tauto.
  - exists 123%N. eexists. split; [reflexivity|]. tauto.
Qed.

Lemma skip_ws_dumps (v : json) (rest : text) :
  skip_ws (dumps v ++ rest) = dumps v ++ rest.
Proof.
  destruct (dumps_head v) as (c & t & -> & Hc).
  destruct (starter_facts c Hc) as (Hws & _). cbn [app skip_ws]. by rewrite Hws.
Qed.

Lemma skip_ws_space (t : text) : skip_ws (32%N :: t) = skip_ws t.
Proof. reflexivity. Qed.

Lemma skip_ws_stays (c : char) (t : text) : is_ws c = false → skip_ws (c :: t) = c :: t.
Proof. intros H. cbn. by rewrite H. Qed.

Lemma dict_set_fresh (k : text) (v : json) (d : list (text * json)) :
  k ∉ d.*1 → dict_set k v d = d ++ [(k, v)].
Proof.
  induction d as [|[k' v'] d IH]; [done|]. intros Hk.
  rewrite fmap_cons in Hk. apply not_elem_of_cons in Hk as [Hne Hk].
  cbn [dict_set]. rewrite bool_decide_eq_false_2 by (simpl in Hne; congruence).
  by rewrite IH.
Qed.

Lemma closes_arr_tail items rest : closes (arr_tail items rest).
Proof. destruct items; simpl; tauto. Qed.

Lemma closes_obj_tail pairs rest : closes (obj_tail pairs rest).
Proof. destruct pairs; simpl; tauto. Qed.

(** The loop over the elements of an array, from its first element on. *)
Lemma array_loop_reads (items : list json) :
  Forall reads items →
  ∀ (x : json) (values : list json) (fuel : nat) (rest : text),
    reads x →
    (weight (x :: items) ≤ fuel)%nat →
    array_loop fuel values (dumps x ++ arr_tail items rest)
    = Ok (JArr (values ++ x :: items), rest).
Proof.
  induction 1 as [|y items Hy _ IH]; intros x values fuel rest Hx Hfuel.
  - destruct fuel as [|fuel]; [simpl in Hfuel; lia|].
    cbn [array_loop]. rewrite Hx; [|simpl in Hfuel; lia|apply closes_arr_tail].
    cbn [mbind result_bind arr_tail]. by rewrite (skip_ws_stays 93%N) by done.
  - destruct fuel as [|fuel]; [simpl in Hfuel; lia|].
    cbn [array_loop]. rewrite Hx; [|simpl in Hfuel; lia|apply closes_arr_tail].
    cbn [mbind result_bind arr_tail]. change (str ", ") with [44%N; 32%N].
    cbn [app]. rewrite (skip_ws_stays 44%N) by done.
    rewrite skip_ws_space, skip_ws_dumps.
    rewrite IH; [|done|simpl in Hfuel |- *; lia].
    by rewrite <- app_assoc.
Qed.

(** The loop over the pairs of an object, from the text after the opening
    quote of its first key on. *)
Lemma object_loop_reads (pairs : list (text * json)) :
  Forall (λ kv, Forall scalar kv.1 ∧ reads kv.2) pairs →
  ∀ (k : text) (v : json) (seen : list (text * json)) (fuel : nat) (rest : text),
    Forall scalar k → reads v →
    NoDup (seen ++ (k, v) :: pairs).*1 →
    (weight (v :: pairs.*2) ≤ fuel)%nat →
    object_loop fuel seen
      (concat (escape_char <$> k) ++ 34%N :: str ": " ++ dumps v ++ obj_tail pairs rest)
    = Ok (JObj (seen ++ (k, v) :: pairs), rest).
Proof.
  induction 1 as [|[k' v'] pairs [Hk' Hv'] _ IH];
    intros k v seen fuel rest Hk Hv Hnodup Hfuel.
  - destruct fuel as [|fuel]; [simpl in Hfuel; lia|].
    assert (Hfresh : k ∉ seen.*1).
    { rewrite fmap_app, fmap_cons in Hnodup. apply NoDup_app in Hnodup as (_ & Hfresh & _).
      intros Hin. apply (Hfresh k Hin). by left. }
    cbn [object_loop].
    rewrite scanstring_encoded; [|done|].
    2:{ rewrite length_app. pose proof (length_escaped k). simpl. lia. }
    cbn [mbind result_bind]. change (str ": ") with [58%N; 32%N]. cbn [app].
    rewrite (skip_ws_stays 58%N) by done. rewrite skip_ws_space, skip_ws_dumps.
    rewrite Hv; [|simpl in Hfuel; lia|apply closes_obj_tail].
    cbn [mbind result_bind obj_tail]. rewrite (skip_ws_stays 125%N) by done.
    by rewrite dict_set_fresh.
  - destruct fuel as [|fuel]; [simpl in Hfuel; lia|].
    assert (Hfresh : k ∉ seen.*1).
    { rewrite fmap_app, fmap_cons in Hnodup. apply NoDup_app in Hnodup as (_ & Hfresh & _).
      intros Hin. apply (Hfresh k Hin). by left. }
    cbn [object_loop].
    rewrite scanstring_encoded; [|done|].
    2:{ rewrite length_app. pose proof (length_escaped k). simpl. lia. }
    cbn [mbind result_bind]. change (str ": ") with [58%N; 32%N]. cbn [app].
    rewrite (skip_ws_stays 58%N) by done. rewrite skip_ws_space, skip_ws_dumps.
    rewrite Hv; [|simpl in Hfuel; lia|apply closes_obj_tail].
    cbn [mbind result_bind obj_tail fst snd]. change (str ", ") with [44%N; 32%N].
    unfold encode_basestring_ascii. cbn [app].
    rewrite (skip_ws_stays 44%N) by done. rewrite skip_ws_space.
    rewrite (skip_ws_stays 34%N) by done.
    rewrite (dict_set_fresh k v seen Hfresh).
    rewrite <- !app_assoc. cbn [app].
    rewrite (IH k' v' (seen ++ [(k, v)]) fuel rest); [|done|done| |].
    + by rewrite <- app_assoc.
    + by rewrite <- app_assoc.
    + rewrite fmap_cons in Hfuel. simpl in Hfuel |- *. lia.
Qed.

(** *** Values *)

Lemma nodes_obj (pairs : list (text * json)) : nodes (JObj pairs) = S (weight pairs.*2).
Proof.
  cbn [nodes]. f_equal. induction pairs as [|kv pairs IH]; [done|].
  rewrite fmap_cons. cbn [fold_right weight]. by rewrite IH.
Qed.

Lemma nodes_in_weight (x : json) (items : list json) :
  x ∈ items → (nodes x < weight items)%nat.
Proof.
  induction 1 as [x items|x y items _ IH]; cbn [weight fold_right]; [lia|].
  unfold weight in IH. lia.
Qed.

Lemma well_formed_arr (items : list json) :
  well_formed (JArr items) → Forall well_formed items.
Proof.
  cbn [well_formed]. induction items as [|x items IH]; [done|].
  cbn [fold_right]. intros [Hx Hitems]. constructor; [done|by apply IH].
Qed.

Lemma well_formed_obj (pairs : list (text * json)) :
  well_formed (JObj pairs) →
  NoDup pairs.*1 ∧ Forall (λ kv, Forall scalar kv.1 ∧ well_formed kv.2) pairs.
Proof.
  cbn [well_formed]. intros [Hnodup Hpairs]. split; [done|]. clear Hnodup.
  induction pairs as [|kv pairs IH]; [done|].
  cbn [fold_right] in Hpairs. destruct Hpairs as (Hk & Hv & Hpairs).
  constructor; [done|by apply IH].
Qed.

(** The first element of an array does not look like the closing
    bracket. *)
Lemma first_element {A} (c : char) (a b : A) :
  c ≠ 93%N →
  match c with
  | 93%N => a
  | _ => b
  end = b.
Proof.
  intros Hc. destruct c as [|p]; [done|].
  repeat (destruct p as [p|p|]; try done).
Qed.

Lemma reads_null : reads JNull.
Proof. intros [|fuel] rest Hfuel _; [simpl in Hfuel; lia|]. reflexivity. Qed.

Lemma reads_bool (b : bool) : reads (JBool b).
Proof. intros [|fuel] rest Hfuel _; [simpl in Hfuel; lia|]. by destruct b. Qed.

Lemma reads_int (n : Z) : reads (JInt n).
Proof.
  intros [|fuel] rest Hfuel Hrest; [simpl in Hfuel; lia|].
  destruct (number_pretty n rest Hrest) as (Hnum & d & t & Hhead & Hd).
  cbn [dumps] in *. rewrite Hhead in *. cbn [scan_once app] in *.
  assert (Hrange : (48 ≤ d ∧ d ≤ 57)%N ∨ d = 45%N).
  { destruct Hd as [Hd|Hd]; [left|by right]. unfold is_digit in Hd.
    apply andb_prop in Hd as [H1 H2]. apply N.leb_le in H1, H2. done. }
  rewrite !bool_decide_eq_false_2 by lia.
  change (str "null") with [110%N; 117%N; 108%N; 108%N].
  change (str "true") with [116%N; 114%N; 117%N; 101%N].
  change (str "false") with [102%N; 97%N; 108%N; 115%N; 101%N].
  cbn [startswith]. rewrite !bool_decide_eq_false_2 by lia.
  cbn [andb]. by rewrite Hnum.
Qed.

Lemma reads_str (s : text) : Forall scalar s → reads (JStr s).
Proof.
  intros Hs [|fuel] rest Hfuel _; [simpl in Hfuel; lia|].
  cbn [dumps]. unfold encode_basestring_ascii. cbn [app scan_once].
  change (bool_decide (34%N = 34%N)) with true. cbv iota.
  rewrite <- app_assoc. cbn [app].
  rewrite scanstring_encoded; [done|done|].
  rewrite length_app. pose proof (length_escaped s). simpl. lia.
Qed.

Lemma reads_arr (items : list json) : Forall reads items → reads (JArr items).
Proof.
  intros Hitems [|fuel] rest Hfuel _; [simpl in Hfuel; lia|].
  destruct Hitems as [|x items Hx Hitems]; [reflexivity|].
  rewrite dumps_arr_cons. cbn [scan_once].
  change (bool_decide (91%N = 34%N)) with false.
  change (bool_decide (91%N = 123%N)) with false.
  change (bool_decide (91%N = 91%N)) with true. cbv iota zeta.
  rewrite skip_ws_dumps.
  destruct (dumps_head x) as (c & t & Hhead & Hc).
  destruct (starter_facts c Hc) as (_ & Hne & _).
  rewrite Hhead at 1. cbn [app]. rewrite (first_element c _ _ Hne).
  apply (array_loop_reads items Hitems x []); [done|].
  cbn [nodes] in Hfuel. unfold weight. simpl in Hfuel |- *. lia.
Qed.

Lemma reads_obj (pairs : list (text * json)) :
  NoDup pairs.*1 →
  Forall (λ kv, Forall scalar kv.1 ∧ reads kv.2) pairs →
  reads (JObj pairs).
Proof.
  intros Hnodup Hpairs [|fuel] rest Hfuel _; [simpl in Hfuel; lia|].
  rewrite nodes_obj in Hfuel.
  destruct Hpairs as [|[k v] pairs [Hk Hv] Hpairs]; [reflexivity|].
  rewrite dumps_obj_cons. cbn [scan_once fst snd].
  change (bool_decide (123%N = 34%N)) with false.
  change (bool_decide (123%N = 123%N)) with true. cbv iota zeta.
  unfold encode_basestring_ascii. cbn [app].
  rewrite (skip_ws_stays 34%N) by done.
  rewrite <- !app_assoc. cbn [app].
  apply (object_loop_reads pairs Hpairs k v []); [done..|].
  rewrite fmap_cons in Hfuel. simpl in Hfuel |- *. lia.
Qed.

(** Every well-formed value is read back. *)
Lemma all_read (n : nat) (v : json) : (nodes v ≤ n)%nat → well_formed v → reads v.
Proof.
  revert v. induction n as [|n IH]; intros v Hn Hwf.
  { destruct v; simpl in Hn; lia. }
  destruct v as [|b|z|s|items|pairs].
  - apply reads_null.
  - apply reads_bool.
  - apply reads_int.
  - by apply reads_str.
  - apply reads_arr. apply well_formed_arr in Hwf.
    apply Forall_forall. intros x Hx. apply IH.
    + pose proof (nodes_in_weight x items Hx). cbn [nodes] in Hn.
      unfold weight in *. lia.
    + rewrite Forall_forall in Hwf. by apply Hwf.
  - apply well_formed_obj in Hwf as [Hnodup Hwf]. apply reads_obj; [done|].
    apply Forall_forall. intros [k v] Hkv.
    rewrite Forall_forall in Hwf. destruct (Hwf _ Hkv) as [Hk Hv].
    split; [done|]. apply IH; [|done].
    assert (Hin : v ∈ pairs.*2).
    { apply list_elem_of_fmap. by exists (k, v). }
    pose proof (nodes_in_weight v _ Hin). rewrite nodes_obj in Hn. simpl. lia.
Qed.

(** *** The recursion budget of [loads] is enough *)

Lemma weight_arr_tail (items : list json) (rest : text) :
  Forall (λ x, (nodes x ≤ length (dumps x))%nat) items →
  (weight items + 1 ≤ length (arr_tail items rest))%nat.
Proof.
  induction 1 as [|x items Hx _ IH]; cbn [weight fold_right arr_tail].
  - simpl. lia.
  - rewrite !length_app. unfold weight in IH. simpl. lia.
Qed.

Lemma weight_obj_tail (pairs : list (text * json)) (rest : text) :
  Forall (λ kv : text * json, (nodes kv.2 ≤ length (dumps kv.2))%nat) pairs →
  (weight pairs.*2 + 1 ≤ length (obj_tail pairs rest))%nat.
Proof.
  induction 1 as [|kv pairs Hkv _ IH]; [simpl; lia|].
  rewrite fmap_cons. cbn [weight fold_right obj_tail].
  rewrite !length_app. unfold weight in IH. simpl. lia.
Qed.

Lemma nodes_le_length (n : nat) (v : json) :
  (nodes v ≤ n)%nat → (nodes v ≤ length (dumps v))%nat.
Proof.
  revert v. induction n as [|n IH]; intros v Hn.
  { destruct v; simpl in Hn; lia. }
  destruct v as [|b|z|s|items|pairs].
  - simpl. lia.
  - destruct b; simpl; lia.
  - destruct (dumps_head (JInt z)) as (c & t & -> & _). simpl. lia.
  - cbn [dumps nodes]. unfold encode_basestring_ascii. rewrite !length_app. simpl. lia.
  - destruct items as [|x items]; [simpl; lia|].
    pose proof (dumps_arr_cons x items []) as Hd. rewrite app_nil_r in Hd. rewrite Hd.
    assert (Hall : Forall (λ y, (nodes y ≤ length (dumps y))%nat) (x :: items)).
    { apply Forall_forall. intros y Hy. apply IH.
      pose proof (nodes_in_weight y _ Hy). cbn [nodes] in Hn. unfold weight in *. lia. }
    apply Forall_cons in Hall as [Hx Hitems].
    pose proof (weight_arr_tail items [] Hitems).
    cbn [nodes fold_right]. cbn [length]. rewrite length_app. unfold weight in *. lia.
  - destruct pairs as [|[k v] pairs]; [simpl; lia|].
    pose proof (dumps_obj_cons (k, v) pairs []) as Hd. rewrite app_nil_r in Hd. rewrite Hd.
    rewrite nodes_obj in Hn |- *. rewrite fmap_cons in Hn |- *.
    assert (Hall : Forall (λ kv : text * json, (nodes kv.2 ≤ length (dumps kv.2))%nat)
                     ((k, v) :: pairs)).
    { apply Forall_forall. intros [k' v'] Hkv. apply IH.
      assert (Hin : v' ∈ ((k, v) :: pairs).*2).
      { apply list_elem_of_fmap. by exists (k', v'). }
      pose proof (nodes_in_weight v' _ Hin). rewrite fmap_cons in H. simpl in *. lia. }
    apply Forall_cons in Hall as [Hv Hpairs].
    pose proof (weight_obj_tail pairs [] Hpairs).
    cbn [weight fold_right fst snd length] in *. rewrite !length_app.
    unfold weight in *. simpl in *. lia.
Qed.

(** [json.loads(json.dumps(v)) == v]. *)
Lemma loads_dumps (v : json) : well_formed v → loads (dumps v) = Ok v.
Proof.
  intros Hwf. unfold loads.
  destruct (dumps_head v) as (c & t & Hhead & Hc).
  destruct (starter_facts c Hc) as (_ & _ & _ & Hbom).
  rewrite Hhead at 1. cbn [startswith].
  rewrite bool_decide_eq_false_2 by done. cbn [andb].
  pose proof (skip_ws_dumps v []) as Hskip. rewrite app_nil_r in Hskip. rewrite Hskip.
  pose proof (all_read (nodes v) v (le_n _) Hwf (2 * length (dumps v) + 2)%nat []) as Hread.
  rewrite app_nil_r in Hread. rewrite Hread.
  - reflexivity.
  - pose proof (nodes_le_length (nodes v) v (le_n _)). lia.
  - done.
Qed.

End JsonRoundTrip.

(** ** More on file names *)

(** A text has no dot, or a last dot. *)
Lemma last_dot (name : text) :
  46%N ∉ name ∨ ∃ stem ext, name = stem ++ 46%N :: ext ∧ 46%N ∉ ext.
Proof.
  induction name as [|c name [Hnone|(stem & ext & -> & Hext)]].
  - left. apply not_elem_of_nil.
  - destruct (decide (c = 46%N)) as [->|Hc].
    + right. by exists [], name.
    + left. by apply not_elem_of_cons.
  - right. by exists (c :: stem), ext.
Qed.

(** The extension [upload] computes always exists, holds no dot and ends
    the file name; it is the whole name when the name has no dot, and
    otherwise what follows the last dot. *)
Theorem file_extension_is_the_dot_free_end (name : text) :
  ∃ ext,
    file_extension name = Ok ext
    ∧ (46%N ∉ ext)
    ∧ (name = ext ∨ ∃ stem, name = stem ++ 46%N :: ext).
Proof.
  destruct (last_dot name) as [Hnone|(stem & ext & -> & Hext)].
  - exists name. split; [by apply file_extension_no_dot|]. split; [done|by left].
  - exists ext. split; [by apply file_extension_after_last_dot|].
    split; [done|]. right. by exists stem.
Qed.

(** Splitting at a character and joining with it gives the text back, and
    no piece holds the character. *)
Theorem split_join_round_trip (sep : char) (t : text) :
  join [sep] (split_char sep t) = t
  ∧ Forall (λ piece, sep ∉ piece) (split_char sep t).
Proof.
  induction t as [|c t [IHjoin IHfree]].
  - split; [done|]. repeat constructor. apply not_elem_of_nil.
  - cbn [split_char]. pose proof (split_char_nonempty sep t) as Hne.
    destruct (split_char sep t) as [|p ps]; [done|].
    case_bool_decide as Hc.
    + subst c. split.
      * rewrite join_cons_cons. cbn [app]. by rewrite IHjoin.
      * constructor; [apply not_elem_of_nil|done].
    + apply Forall_cons in IHfree as [Hp Hps]. split.
      * rewrite <- IHjoin. destruct ps as [|q ps]; [done|].
        by rewrite !join_cons_cons.
      * constructor; [by apply not_elem_of_cons|done].
Qed.

(** ** JSON files in canonical form *)



(** ** What the handlers do to the outside *)

Lemma tally_app p a b : tally p (a ++ b) = (tally p a + tally p b)%nat.
Proof. induction a as [|e a IH]; simpl; [done|]. rewrite IH. lia. Qed.

Lemma tally_insertions p (rows : list record) :
  (∀ row, p (AddObject row) = false) → tally p (AddObject <$> rows) = 0%nat.
Proof.
  intros Hp. induction rows as [|row rows IH]; [done|].
  rewrite fmap_cons. cbn [tally]. by rewrite Hp, IH.
Qed.

Lemma tally_add_insertions (rows : list record) :
  tally is_add (AddObject <$> rows) = length rows.
Proof.
  induction rows as [|row rows IH]; [done|].
  rewrite fmap_cons. cbn [tally is_add length]. by rewrite IH.
Qed.

(** An upload is refused with the world untouched, or goes through the
    [try] block under some name and extension. *)
Lemma upload_cases upl w :
  (∃ detail, upload upl w = (Raise (HTTPException 400 detail), w))
  ∨ (∃ name ext,
       py_or (attr_filename upl) (attr_name upl) = Some name
       ∧ file_extension name = Ok ext
       ∧ upload upl w = ingest_outcome name ext (file upl) w).
Proof.
  destruct (truthy (py_or (attr_filename upl) (attr_name upl))) eqn:Htruthy.
  - destruct (py_or (attr_filename upl) (attr_name upl)) as [[|c name]|] eqn:Hname;
      try discriminate.
    assert (∃ ext, file_extension (c :: name) = Ok ext) as (ext & Hext).
    { destruct (last_dot (c :: name)) as [Hnone|(stem & ext & Hsplit & Hfree)].
      - exists (c :: name). by apply file_extension_no_dot.
      - exists ext. rewrite Hsplit. by apply file_extension_after_last_dot. }
    rewrite (upload_named upl w (c :: name) ext) by done.
    case_bool_decide; [right; by exists (c :: name), ext|left; eauto].
  - left. rewrite upload_no_filename by done. eauto.
Qed.

Lemma balanced_prefix_suffix name (rows : list record) :
  balanced (upload_prefix name ++ (AddObject <$> rows) ++ [Rmtree; Close]).
Proof.
  unfold balanced. rewrite !tally_app, !tally_insertions by done. by simpl.
Qed.

(** The records of a document are stored under its name. *)
Lemma process_doc_names f ext name rows :
  process_doc f ext name = Ok rows → Forall (has_name name) rows.
Proof.
  intros Hrows.
  destruct (process_doc_ok _ _ _ _ Hrows) as (doc_text & chunks & _ & _ & ->).
  apply Forall_forall. intros row Hrow.
  apply list_elem_of_lookup in Hrow as (i & Hi).
  rewrite list_lookup_imap in Hi.
  destruct (chunks !! i) as [chunk|]; [|done]. injection Hi as <-.
  exact (linked_record_name _ _ _ _ _).
Qed.

Lemma process_doc_built f ext name rows :
  process_doc f ext name = Ok rows → Forall built rows.
Proof.
  intros Hrows.
  destruct (process_doc_ok _ _ _ _ Hrows) as (doc_text & chunks & _ & _ & ->).
  apply Forall_forall. intros row Hrow.
  apply list_elem_of_lookup in Hrow as (i & Hi).
  rewrite list_lookup_imap in Hi.
  destruct (chunks !! i) as [chunk|]; [|done]. injection Hi as <-.
  unfold built, linked_record. eauto 10.
Qed.

Lemma filter_others_named name (l : list record) :
  Forall (has_name name) l → filter (λ row, ¬ has_name name row) l = [].
Proof.
  induction 1 as [|row l Hrow _ IH]; [done|].
  rewrite filter_cons. destruct (decide (¬ has_name name row)); [done|exact IH].
Qed.

Lemma filter_others_twice name (l : list record) :
  filter (λ row, ¬ has_name name row) (filter (λ row, ¬ has_name name row) l)
  = filter (λ row, ¬ has_name name row) l.
Proof.
  induction l as [|row l IH]; [done|].
  rewrite filter_cons. destruct (decide (¬ has_name name row)) as [Hn|Hn]; [|exact IH].
  rewrite filter_cons. destruct (decide (¬ has_name name row)); [|done].
  by rewrite IH.
Qed.



(** Uploading the same file a second time leaves the store as the first
    upload left it, whatever the upload answers: no object is doubled. *)
Theorem upload_twice_is_upload_once upl w :
  objects (upload upl (upload upl w).2).2 = objects (upload upl w).2.
Proof.
  destruct (upload_cases upl w) as [(detail & Hrefused)|(name & ext & Hname & Hext & Hrun)].
  - rewrite !Hrefused. simpl. by rewrite Hrefused.
  - destruct (upload_cases upl (upload upl w).2) as [(detail & Hrefused)|(name' & ext' & Hname' & Hext' & Hrun')].
    + by rewrite Hrefused.
    + assert (name' = name ∧ ext' = ext) as [-> ->].
      { rewrite Hname in Hname'. injection Hname' as <-.
        rewrite Hext in Hext'. by injection Hext' as <-. }
      rewrite Hrun'. rewrite Hrun. unfold ingest_outcome.
      destruct (process_doc (file upl) ext name) as [rows|e|] eqn:Hrows; cbn [snd objects].
      * rewrite filter_app, filter_others_twice.
        rewrite (filter_others_named name rows), app_nil_r; [done|].
        by eapply process_doc_names.
      * apply filter_others_twice.
      * apply filter_others_twice.
Qed.

(** ** Every outcome of a search *)

(** One object of the response gives a result, or the [KeyError] of the
    first field it lacks. *)
Lemma search_result_cases item :
  match missing_field item with
  | Some key => search_result item = Raise (KeyError key)
  | None => ∃ row, search_result item = Ok row ∧ reshaped item row
  end.
Proof.
  unfold missing_field, required_fields, search_result, subscript, get.
  rewrite !filter_cons, filter_nil.
  destruct (properties item !! "text") as [v1|] eqn:H1;
    [rewrite decide_False by done|by rewrite decide_True by done].
  destruct (properties item !! "document_name") as [v2|] eqn:H2;
    [rewrite decide_False by done|by rewrite decide_True by done].
  destruct (properties item !! "chunk_id") as [v3|] eqn:H3;
    [rewrite decide_False by done|by rewrite decide_True by done].
  destruct (properties item !! "document_type") as [v4|] eqn:H4;
    [rewrite decide_False by done|by rewrite decide_True by done].
  cbn [head mbind]. eexists. split; [reflexivity|].
  unfold reshaped. rewrite H1, H2, H3, H4.
  repeat split; by simplify_map_eq.
Qed.

(** The loop of [search] builds one result per object, or stops at the
    first object that lacks a field. *)
Lemma search_loop_outcome (response : list Item) (acc : list record) :
  (Forall (λ item, missing_field item = None) response
   ∧ ∃ rows,
       for_each (λ results item, row ← search_result item; Ok (results ++ [row]))
         acc response = Ok (acc ++ rows)
       ∧ Forall2 reshaped response rows)
  ∨ (∃ (i : nat) item key,
       response !! i = Some item
       ∧ missing_field item = Some key
       ∧ Forall (λ item, missing_field item = None) (take i response)
       ∧ for_each (λ results item, row ← search_result item; Ok (results ++ [row]))
           acc response = Raise (KeyError key)).
Proof.
  revert acc. induction response as [|item response IH]; intros acc.
  - left. split; [done|]. exists []. by rewrite app_nil_r.
  - pose proof (search_result_cases item) as Hitem.
    destruct (missing_field item) as [key|] eqn:Hmiss.
    + right. exists 0%nat, item, key.
      split; [done|]. split; [done|]. split; [by rewrite take_0|].
      cbn [for_each]. by rewrite Hitem.
    + destruct Hitem as (row & Hrow & Hshape).
      destruct (IH (acc ++ [row])) as [(Hall & rows & Hloop & Hrows)
                                      |(i & item' & key & Hi & Hkey & Hbefore & Hloop)].
      * left. split; [by constructor|]. exists (row :: rows). split.
        -- cbn [for_each]. rewrite Hrow. cbn [mbind]. 
           change (for_each (λ results item0, row0 ← search_result item0; Ok (results ++ [row0]))
                     (acc ++ [row]) response = Ok (acc ++ row :: rows)).
           rewrite Hloop. by rewrite <- app_assoc.
        -- by constructor.
      * right. exists (S i), item', key.
        split; [done|]. split; [done|].
        split; [rewrite firstn_cons; by constructor|].
        cbn [for_each]. rewrite Hrow.
        change (for_each (λ results item0, row0 ← search_result item0; Ok (results ++ [row0]))
                  (acc ++ [row]) response = Raise (KeyError key)).
        exact Hloop.
Qed.

(** [search] with the outcome of its loop. *)
Lemma search_run near_text query limit w :
  search near_text query limit w
  = (match for_each (λ results item, row ← search_result item; Ok (results ++ [row]))
             [] (near_text (objects w) query limit) with
     | Ok rows => Ok {| results := rows; query := query |}
     | Raise e => Raise e
     | Unmodelled => Unmodelled
     end,
     {| objects := objects w;
        trace := trace w ++ [Connect; NearText query limit]
                   ++ match for_each (λ results item, row ← search_result item;
                                        Ok (results ++ [row]))
                              [] (near_text (objects w) query limit) with
                      | Unmodelled => []
                      | _ => [Close]
                      end |}).
Proof.
  unfold search, get_weaviate_client, try_finally.
  unfold mbind at 1 2 3, M_bind, emit, pure_call. simpl.
  destruct (for_each _ [] (near_text (objects w) query limit)); simpl;
    unfold mret, M_ret; by rewrite <- !app_assoc.
Qed.

(** A search never changes the store and always closes its connection.
    It answers with one result per object of the response, in order, each
    carrying the fields of its object; or, when an object lacks one of the
    four fields read by subscript, it raises the [KeyError] of the first
    field missing in the first such object. *)
Theorem search_answers_or_names_the_missing_field near_text query limit w :
  (search near_text query limit w).2
  = {| objects := objects w;
       trace := trace w ++ [Connect; NearText query limit; Close] |}
  ∧ ((Forall (λ item, missing_field item = None) (near_text (objects w) query limit)
      ∧ ∃ rows,
          (search near_text query limit w).1 = Ok {| results := rows; query := query |}
          ∧ Forall2 reshaped (near_text (objects w) query limit) rows)
     ∨ (∃ (i : nat) item key,
          near_text (objects w) query limit !! i = Some item
          ∧ missing_field item = Some key
          ∧ Forall (λ item, missing_field item = None)
              (take i (near_text (objects w) query limit))
          ∧ (search near_text query limit w).1 = Raise (KeyError key))).
Proof.
  rewrite search_run. cbn [fst snd].
  destruct (search_loop_outcome (near_text (objects w) query limit) [])
    as [(Hall & rows & Hloop & Hrows)|(i & item & key & Hi & Hkey & Hbefore & Hloop)].
  - rewrite Hloop. split; [done|]. left. split; [done|]. by exists rows.
  - rewrite Hloop. split; [done|]. right. by exists i, item, key.
Qed.

(** A dictionary built by [process_doc] lacks none of the fields
    [search] reads. *)
Lemma built_complete item :
  built (properties item) →
  missing_field item = None
  ∧ is_Some (properties item !! "context_before")
  ∧ is_Some (properties item !! "context_after").
Proof.
  intros (chunk & name & i & ty & total & before & after & Hrow).
  unfold missing_field, required_fields. rewrite Hrow.
  unfold document_chunk. split; [|split; by simplify_map_eq].
  rewrite !filter_cons, filter_nil.
  repeat (rewrite decide_False by (by simplify_map_eq)). done.
Qed.

Lemma upload_keeps_built upl w :
  Forall built (objects w) → Forall built (objects (upload upl w).2).
Proof.
  intros Hbuilt.
  assert (Hkept : ∀ name, Forall built (filter (λ row, ¬ has_name name row) (objects w))).
  { intros name. apply Forall_forall. intros row Hrow.
    apply list_elem_of_filter in Hrow as [_ Hrow].
    rewrite Forall_forall in Hbuilt. by apply Hbuilt. }
  destruct (upload_cases upl w) as [(detail & ->)|(name & ext & _ & _ & ->)]; [done|].
  unfold ingest_outcome.
  destruct (process_doc (file upl) ext name) as [rows|e|] eqn:Hrows; cbn [snd objects];
    [|done..].
  apply Forall_app. split; [done|]. by eapply process_doc_built.
Qed.

Lemma run_uploads_built uploads w :
  Forall built (objects w) → Forall built (objects (run_uploads uploads w)).
Proof.
  revert w. induction uploads as [|upl uploads IH]; intros w Hbuilt; [done|].
  apply IH. by apply upload_keeps_built.
Qed.

(** On a store filled by uploads alone, a search whose response is made of
    stored objects never fails: whatever was uploaded, accepted or not,
    every object of the response has the fields [search] reads, and each
    result carries the text and the two context fields exactly as stored,
    so the default of the context fields is never used. *)
Theorem search_after_uploads_never_fails uploads near_text query limit :
  (∀ stored item, item ∈ near_text stored query limit → properties item ∈ stored) →
  ∃ rows,
    (search near_text query limit
       (run_uploads uploads {| objects := []; trace := [] |})).1
    = Ok {| results := rows; query := query |}
    ∧ Forall2 (λ item row,
        reshaped item row
        ∧ row !! "context_before" = properties item !! "context_before"
        ∧ row !! "context_after" = properties item !! "context_after")
        (near_text (objects (run_uploads uploads {| objects := []; trace := [] |}))
           query limit)
        rows.
Proof.
  intros Hfaithful.
  set (w := run_uploads uploads {| objects := []; trace := [] |}).
  assert (Hbuilt : Forall built (objects w)) by (by apply run_uploads_built).
  assert (Hitems : Forall (λ item, built (properties item))
                     (near_text (objects w) query limit)).
  { apply Forall_forall. intros item Hitem.
    rewrite Forall_forall in Hbuilt. apply Hbuilt. by eapply Hfaithful. }
  rewrite search_run. cbn [fst].
  destruct (search_loop_outcome (near_text (objects w) query limit) [])
    as [(_ & rows & Hloop & Hshape)|(i & item & key & Hi & Hkey & _)].
  - rewrite Hloop. exists rows. split; [done|].
    apply Forall2_same_length_lookup. split; [by eapply Forall2_length|].
    intros j item row Hitem Hrow.
    pose proof (Forall2_lookup_lr _ _ _ _ _ _ Hshape Hitem Hrow) as Hr.
    split; [done|].
    rewrite Forall_forall in Hitems.
    destruct (built_complete item) as (_ & [vb Hb] & [va Ha]).
    { apply Hitems. by eapply list_elem_of_lookup_2. }
    destruct Hr as (_ & _ & _ & _ & Hrb & Hra & _).
    by rewrite Hrb, Hra, Hb, Ha.
  - exfalso. rewrite Forall_forall in Hitems.
    destruct (built_complete item) as (Hnone & _).
    { apply Hitems. by eapply list_elem_of_lookup_2. }
    congruence.
Qed.

Lemma search_after_uploads_never_fails_witness :
  (∀ stored item, item ∈ first_stored stored (str "refund policy") 5 →
     properties item ∈ stored)
  ∧ ∃ rows,
      (search first_stored (str "refund policy") 5
         (run_uploads [named_upload (str "a.json") (text_file json_a1);
                       named_upload (str "b.json") broken_json]
            {| objects := []; trace := [] |})).1
      = Ok {| results := rows; query := str "refund policy" |}
      ∧ Forall2 (λ item row,
          reshaped item row
          ∧ row !! "context_before" = properties item !! "context_before"
          ∧ row !! "context_after" = properties item !! "context_after")
          (first_stored
             (objects (run_uploads [named_upload (str "a.json") (text_file json_a1);
                                    named_upload (str "b.json") broken_json]
                         {| objects := []; trace := [] |}))
             (str "refund policy") 5)
          rows.
Proof.
  assert (H : ∀ stored item, item ∈ first_stored stored (str "refund policy") 5 →
                properties item ∈ stored).
  { intros stored item Hitem. unfold first_stored in Hitem.
    apply list_elem_of_fmap in Hitem as (row & -> & Hrow).
    apply list_elem_of_lookup in Hrow as (i & Hi).
    apply lookup_take_Some in Hi as [Hi _]. by eapply list_elem_of_lookup_2. }
  split; [exact H|].
  exact (search_after_uploads_never_fails _ first_stored (str "refund policy") 5 H).
Defined.

(** ** What an upload answers *)

(** [upload] reports failure by raising only: whenever it returns, the
    answer says success, and its chunk count is the number of objects the
    upload inserted into the store. *)
Theorem upload_answer_counts_the_insertions upl w answer w' :
  upload upl w = (Ok answer, w') →
  success answer = true
  ∧ ∃ added,
      trace w' = trace w ++ added
      ∧ chunks answer = Z.of_nat (tally is_add added)
      ∧ ∃ kept, sublist kept (objects w)
          ∧ len (objects w') = len kept + chunks answer.
Proof.
  intros Hrun.
  destruct (upload_cases upl w) as [(detail & Hrefused)|(name & ext & _ & _ & Hingest)].
  - rewrite Hrefused in Hrun. discriminate.
  - rewrite Hingest in Hrun. unfold ingest_outcome in Hrun.
    destruct (process_doc (file upl) ext name) as [rows|e|]; [|discriminate..].
    injection Hrun as <- <-. split; [done|].
    eexists. split; [reflexivity|]. cbn [chunks trace objects].
    split.
    + cbn [tally is_add]. rewrite tally_app, tally_add_insertions.
      cbn [tally is_add]. unfold len. lia.
    + exists (filter (λ row, ¬ has_name name row) (objects w)).
      split; [apply sublist_filter|].
      unfold len. rewrite length_app. lia.
Qed.

Lemma upload_answer_counts_the_insertions_witness :
  upload (named_upload (str "a.json") (text_file json_a1)) small_world
  = (Ok a_json_answer, a_json_world)
  ∧ success a_json_answer = true
  ∧ ∃ added,
      trace a_json_world = trace small_world ++ added
      ∧ chunks a_json_answer = Z.of_nat (tally is_add added)
      ∧ ∃ kept, sublist kept (objects small_world)
          ∧ len (objects a_json_world) = len kept + chunks a_json_answer.
Proof.
  assert (Hdoc : process_doc (text_file json_a1) (str "json") (str "a.json") = Ok [a_json_row])
    by (apply (process_doc_from_chunks _ _ _ json_a1_canonical [json_a1_canonical]);
        vm_compute; reflexivity).
  assert (Hrun : upload (named_upload (str "a.json") (text_file json_a1)) small_world
                 = (Ok a_json_answer, a_json_world)).
  { rewrite (upload_named _ _ (str "a.json") (str "json"));
      [|done|vm_compute; discriminate|vm_compute; reflexivity].
    rewrite bool_decide_eq_true_2 by compute_done.
    unfold ingest_outcome. cbn [file named_upload]. rewrite Hdoc.
    unfold a_json_answer, a_json_world. f_equal. }
  split; [exact Hrun|].
  exact (upload_answer_counts_the_insertions _ _ _ _ Hrun).
Defined.

(** ** The schema and the records *)

Lemma built_conforms row :
  built row → conforms row (Admin.properties Admin.document_chunk_config).
Proof.
  intros (chunk & name & i & ty & total & before & after & ->).
  unfold conforms, document_chunk. split.
  - rewrite !dom_insert_L, dom_empty_L.
    unfold Admin.document_chunk_config. cbn [Admin.properties].
    rewrite !fmap_cons, fmap_nil. cbn [property_name].
    rewrite !list_to_set_cons, list_to_set_nil. set_solver.
  - repeat constructor; eexists; (split; [by simplify_map_eq|done]).
Qed.

(** Every record [process_doc] builds fits the schema
    [setup_weaviate_schema] declares: it has the seven declared properties
    and no other key, a string where the schema says TEXT and an integer
    where it says INT; and the property the vectors are computed from is
    one of the declared ones. *)
Theorem records_conform_to_the_schema f file_type file_name rows :
  process_doc f file_type file_name = Ok rows →
  Forall (λ row, conforms row (Admin.properties Admin.document_chunk_config)) rows
  ∧ Forall (λ v, Admin.source_properties v
                 ⊆ property_name <$> Admin.properties Admin.document_chunk_config)
      (Admin.vectorizer_config Admin.document_chunk_config).
Proof.
  intros Hrows. split.
  - eapply Forall_impl; [by eapply process_doc_built|]. apply built_conforms.
  - apply Forall_cons. split; [|by apply Forall_nil].
    cbn [Admin.source_properties].
    intros key Hkey. apply list_elem_of_singleton in Hkey as ->. compute_done.
Qed.

Lemma records_conform_to_the_schema_witness :
  process_doc (text_file letters) (str "txt") (str "a.txt")
  = Ok (imap (linked_record letters_chunks (str "txt") (str "a.txt")) letters_chunks)
  ∧ Forall (λ row, conforms row (Admin.properties Admin.document_chunk_config))
      (imap (linked_record letters_chunks (str "txt") (str "a.txt")) letters_chunks)
  ∧ Forall (λ v, Admin.source_properties v
                 ⊆ property_name <$> Admin.properties Admin.document_chunk_config)
      (Admin.vectorizer_config Admin.document_chunk_config).
Proof.
  assert (H : process_doc (text_file letters) (str "txt") (str "a.txt")
              = Ok (imap (linked_record letters_chunks (str "txt") (str "a.txt"))
                      letters_chunks))
    by (apply (process_doc_from_chunks _ _ _ letters); vm_compute; reflexivity).
  split; [exact H|].
  exact (records_conform_to_the_schema _ _ _ _ H).
Defined.

(** ** Managing the collection *)

Lemma setup_run c :
  Admin.setup_weaviate_schema c
  = (inr (),
     {| Admin.collections :=
          match Admin.collections c !! "DocumentChunk" with
          | Some _ => Admin.collections c
          | None => <["DocumentChunk" := fresh_collection]> (Admin.collections c)
          end;
        Admin.calls :=
          Admin.calls c
            ++ [Admin.Connected; Admin.Asked "DocumentChunk"]
            ++ match Admin.collections c !! "DocumentChunk" with
               | Some _ => []
               | None => [Admin.Created "DocumentChunk"]
               end
            ++ [Admin.Closed] |}).
Proof.
  unfold Admin.setup_weaviate_schema, Admin.get_weaviate_client, Admin.client_close,
    Admin.collections_exists, Admin.collections_create, Admin.log.
  unfold mbind, Admin.Admin_bind, mret, Admin.Admin_ret. cbn [Admin.collections Admin.calls].
  destruct (Admin.collections c !! "DocumentChunk") as [coll|] eqn:Hc.
  - rewrite bool_decide_eq_true_2 by eauto. cbn [negb Admin.collections Admin.calls].
    by rewrite <- !app_assoc.
  - rewrite bool_decide_eq_false_2 by (by intros [? ?]).
    cbn [negb Admin.collections Admin.calls]. rewrite Hc.
    cbn [Admin.collections Admin.calls]. by rewrite <- !app_assoc.
Qed.

(** [setup_weaviate_schema] never fails and never drops data: it creates
    the collection only when there is none, so an existing collection
    keeps its configuration and its objects, every other collection is
    left alone, and running it again changes nothing.  It closes the
    connection it opens. *)
Theorem setup_keeps_an_existing_collection (c : Admin.Cluster) :
  ∃ c',
    Admin.setup_weaviate_schema c = (inr (), c')
    ∧ Admin.collections c' !! "DocumentChunk"
      = Some (default fresh_collection (Admin.collections c !! "DocumentChunk"))
    ∧ (∀ name, name ≠ "DocumentChunk" →
         Admin.collections c' !! name = Admin.collections c !! name)
    ∧ (∃ between,
         Admin.calls c' = Admin.calls c ++ Admin.Connected :: between ++ [Admin.Closed]
         ∧ (Admin.Created "DocumentChunk" ∈ between
            ↔ Admin.collections c !! "DocumentChunk" = None)
         ∧ ∀ x, x ∈ between →
             x = Admin.Asked "DocumentChunk" ∨ x = Admin.Created "DocumentChunk")
    ∧ (Admin.setup_weaviate_schema c').1 = inr ()
    ∧ Admin.collections (Admin.setup_weaviate_schema c').2 = Admin.collections c'.
Proof.
  eexists. split; [apply setup_run|]. rewrite setup_run.
  cbn [fst snd Admin.collections Admin.calls].
  destruct (Admin.collections c !! "DocumentChunk") as [coll|] eqn:Hc.
  - rewrite Hc. cbn [default]. split; [done|]. split; [done|]. split; [|done].
    exists [Admin.Asked "DocumentChunk"]. split; [done|]. split.
    + split; [|done]. intros Hin. apply list_elem_of_singleton in Hin. discriminate.
    + intros x Hx. apply list_elem_of_singleton in Hx. by left.
  - rewrite lookup_insert_eq. cbn [default]. split; [done|].
    split; [intros name Hname; by rewrite lookup_insert_ne|]. split; [|done].
    exists [Admin.Asked "DocumentChunk"; Admin.Created "DocumentChunk"].
    split; [done|]. split.
    + split; [done|]. intros _. set_solver.
    + intros x Hx. rewrite !elem_of_cons in Hx.
      destruct Hx as [-> | [-> | Hx]]; [by left|by right|by apply elem_of_nil in Hx].
Qed.

(** [delete_all] answers its message, and leaves the collection as
    [setup_weaviate_schema] creates it: present, with the schema of the
    source and without any object, so that the handlers that follow find
    it; every other collection is left alone.  Both connections it opens,
    its own and the one of [setup_weaviate_schema], are closed. *)
Theorem delete_all_leaves_a_fresh_collection (c : Admin.Cluster) :
  is_Some (Admin.collections c !! "DocumentChunk") →
  ∃ c',
    Admin.delete_all c = (inr (str "All documents deleted successfully"), c')
    ∧ Admin.collections c' = <["DocumentChunk" := fresh_collection]> (Admin.collections c)
    ∧ Admin.calls c'
      = Admin.calls c
          ++ [Admin.Connected; Admin.Deleted "DocumentChunk";
              Admin.Connected; Admin.Asked "DocumentChunk"; Admin.Created "DocumentChunk";
              Admin.Closed; Admin.Closed].
Proof.
  intros _. eexists.
  unfold Admin.delete_all, Admin.try_finally.
  unfold mbind at 1, Admin.Admin_bind at 1.
  unfold mbind at 1 2, Admin.Admin_bind at 1 2.
  unfold Admin.get_weaviate_client at 1, Admin.collections_delete,
    Admin.client_close, Admin.log.
  rewrite setup_run. cbn [Admin.collections Admin.calls].
  rewrite lookup_delete_eq. unfold mret, Admin.Admin_ret.
  cbn [Admin.collections Admin.calls].
  rewrite insert_delete_eq, <- !app_assoc. done.
Qed.

Lemma delete_all_leaves_a_fresh_collection_witness :
  is_Some (Admin.collections small_cluster !! "DocumentChunk")
  ∧ ∃ c',
      Admin.delete_all small_cluster = (inr (str "All documents deleted successfully"), c')
      ∧ Admin.collections c'
        = <["DocumentChunk" := fresh_collection]> (Admin.collections small_cluster)
      ∧ Admin.calls c'
        = Admin.calls small_cluster
            ++ [Admin.Connected; Admin.Deleted "DocumentChunk";
                Admin.Connected; Admin.Asked "DocumentChunk"; Admin.Created "DocumentChunk";
                Admin.Closed; Admin.Closed].
Proof.
  assert (H : is_Some (Admin.collections small_cluster !! "DocumentChunk")).
  { unfold small_cluster. cbn [Admin.collections]. rewrite lookup_singleton_eq. eauto. }
  split; [exact H|].
  exact (delete_all_leaves_a_fresh_collection small_cluster H).
Defined.

(** ** The text of a JSON file is printable ASCII *)

Module JsonAscii.
Import Json.

(** A literal of printable characters. *)
Ltac literal :=
  repeat first [by apply Forall_nil
               | apply Forall_cons; split;
                 [first [by (unfold printable; lia)
                        | by (vm_compute; split; discriminate)]|]].

Lemma printable_join (sep : text) (parts : list text) :
  Forall printable sep → Forall (Forall printable) parts →
  Forall printable (join sep parts).
Proof.
  intros Hsep. induction 1 as [|p parts Hp Hparts IH]; [done|].
  destruct parts as [|q parts]; [done|].
  rewrite join_cons_cons. apply Forall_app. split; [done|].
  apply Forall_app. by split.
Qed.

Lemma printable_pretty_go (x : N) (s : string) :
  Forall printable (str s) → Forall printable (str (pretty_N_go x s)).
Proof.
  revert s. induction (N.lt_wf_0 x) as [x _ IH]. intros s Hs.
  destruct (decide (x = 0%N)) as [->|Hpos].
  - by rewrite pretty_N_go_0.
  - rewrite pretty_N_go_step by lia. apply IH; [apply N.div_lt; [by apply N.neq_0_lt_0|done]|].
    assert (Hd : (x mod 10 < 10)%N) by (apply N.mod_lt; done).
    rewrite JsonRoundTrip.str_digit by done.
    constructor; [|done]. unfold printable.
    remember (x mod 10)%N as d eqn:Hdm. clear Hdm. lia.
Qed.

Lemma printable_pretty (n : Z) : Forall printable (str (pretty n)).
Proof.
  destruct n as [|p|p].
  - change (str (pretty 0)) with [48%N]. literal.
  - change (pretty (Z.pos p)) with (pretty_N_go (N.pos p) "").
    by apply printable_pretty_go.
  - change (pretty (Z.neg p)) with ("-" +:+ pretty_N_go (N.pos p) "").
    rewrite JsonRoundTrip.str_app. change (str "-") with [45%N].
    constructor; [unfold printable; lia|]. by apply printable_pretty_go.
Qed.

Lemma printable_hexdigit (n : N) : (n < 16)%N → printable (hexdigit n).
Proof.
  intros Hn. unfold hexdigit, printable.
  destruct (N.ltb_spec n 10); lia.
Qed.

Lemma printable_u_escape (n : N) : Forall printable (u_escape n).
Proof.
  unfold u_escape.
  repeat (constructor; [first [by (unfold printable; lia)
                              | apply printable_hexdigit; apply N.mod_lt; done]|]).
  constructor.
Qed.

Lemma printable_escape_char (c : char) : Forall printable (escape_char c).
Proof.
  unfold escape_char.
  repeat (case_bool_decide; [literal|]).
  destruct (N.leb_spec 32 c); cbn [andb].
  - destruct (N.leb_spec c 126); [literal|].
    destruct (c <? 65536)%N; [apply printable_u_escape|].
    apply Forall_app. split; apply printable_u_escape.
  - destruct (c <? 65536)%N; [apply printable_u_escape|].
    apply Forall_app. split; apply printable_u_escape.
Qed.

Lemma printable_string (s : text) : Forall printable (encode_basestring_ascii s).
Proof.
  unfold encode_basestring_ascii.
  apply Forall_app. split; [literal|].
  apply Forall_app. split; [|literal].
  induction s as [|c s IH]; [done|].
  rewrite fmap_cons. cbn [concat]. apply Forall_app. split; [|done].
  apply printable_escape_char.
Qed.

Lemma printable_dumps_bounded (n : nat) (v : json) :
  (nodes v ≤ n)%nat → Forall printable (dumps v).
Proof.
  revert v. induction n as [|n IH]; intros v Hn.
  { destruct v; simpl in Hn; lia. }
  destruct v as [|b|z|s|items|pairs].
  - cbn [dumps]. literal.
  - destruct b; cbn [dumps]; literal.
  - apply printable_pretty.
  - apply printable_string.
  - cbn [dumps]. apply Forall_app. split; [literal|].
    apply Forall_app. split; [|literal].
    apply printable_join; [literal|].
    apply Forall_forall. intros t Ht.
    apply list_elem_of_fmap in Ht as (y & -> & Hy). apply IH.
    pose proof (JsonRoundTrip.nodes_in_weight y _ Hy) as Hlt.
    cbn [nodes] in Hn. unfold weight in Hlt. lia.
  - cbn [dumps]. apply Forall_app. split; [literal|].
    apply Forall_app. split; [|literal].
    apply printable_join; [literal|].
    apply Forall_forall. intros t Ht.
    apply list_elem_of_fmap in Ht as ([k y] & -> & Hky). cbn [fst snd].
    apply Forall_app. split; [apply printable_string|].
    apply Forall_app. split; [literal|].
    apply IH.
    assert (Hin : y ∈ pairs.*2).
    { apply list_elem_of_fmap. by exists (k, y). }
    pose proof (JsonRoundTrip.nodes_in_weight y _ Hin) as Hlt.
    rewrite JsonRoundTrip.nodes_obj in Hn. lia.
Qed.

Lemma printable_dumps (v : json) : Forall printable (dumps v).
Proof. exact (printable_dumps_bounded (nodes v) v (le_n _)). Qed.

End JsonAscii.



(** ** Whole documents in the store *)

Lemma linked_record_id chunks file_type file_name i chunk :
  linked_record chunks file_type file_name i chunk !! "chunk_id"
  = Some (VInt (Z.of_nat i)).
Proof.
  unfold linked_record.
  by destruct (document_chunk_fields chunk file_name (Z.of_nat i) file_type
                 (len chunks) (chunk_before chunks i) (chunk_after chunks i))
    as (_ & _ & H & _).
Qed.

Lemma linked_record_before chunks file_type file_name i chunk :
  linked_record chunks file_type file_name i chunk !! "context_before"
  = Some (VStr (chunk_before chunks i)).
Proof.
  unfold linked_record.
  by destruct (document_chunk_fields chunk file_name (Z.of_nat i) file_type
                 (len chunks) (chunk_before chunks i) (chunk_after chunks i))
    as (_ & _ & _ & _ & _ & H & _).
Qed.

Lemma linked_record_after chunks file_type file_name i chunk :
  linked_record chunks file_type file_name i chunk !! "context_after"
  = Some (VStr (chunk_after chunks i)).
Proof.
  unfold linked_record.
  by destruct (document_chunk_fields chunk file_name (Z.of_nat i) file_type
                 (len chunks) (chunk_before chunks i) (chunk_after chunks i))
    as (_ & _ & _ & _ & _ & _ & H).
Qed.

Lemma filter_named_all name (l : list record) :
  Forall (has_name name) l → filter (has_name name) l = l.
Proof.
  induction 1 as [|row l Hrow _ IH]; [done|].
  rewrite filter_cons. destruct (decide (has_name name row)); [by rewrite IH|done].
Qed.

Lemma filter_named_none name other (l : list record) :
  name ≠ other → Forall (has_name other) l → filter (has_name name) l = [].
Proof.
  intros Hne. induction 1 as [|row l Hrow _ IH]; [done|].
  rewrite filter_cons. destruct (decide (has_name name row)) as [Hn|Hn]; [|exact IH].
  unfold has_name in *. congruence.
Qed.

Lemma filter_named_dropped name (l : list record) :
  filter (has_name name) (filter (λ row, ¬ has_name name row) l) = [].
Proof.
  induction l as [|row l IH]; [done|].
  rewrite filter_cons. destruct (decide (¬ has_name name row)) as [Hn|Hn]; [|exact IH].
  rewrite filter_cons. destruct (decide (has_name name row)); [done|exact IH].
Qed.

Lemma filter_named_kept name other (l : list record) :
  name ≠ other →
  filter (has_name name) (filter (λ row, ¬ has_name other row) l)
  = filter (has_name name) l.
Proof.
  intros Hne. induction l as [|row l IH]; [done|].
  rewrite !filter_cons.
  destruct (decide (¬ has_name other row)) as [Ho|Ho].
  - rewrite filter_cons. destruct (decide (has_name name row)); by rewrite IH.
  - destruct (decide (has_name name row)) as [Hn|Hn]; [|exact IH].
    exfalso. apply Ho. unfold has_name in *. congruence.
Qed.

(** The records of one document are a whole document. *)
Lemma linked_records_whole chunks file_type file_name :
  let rows := imap (linked_record chunks file_type file_name) chunks in
  (∀ (i : nat) row, rows !! i = Some row →
     row !! "chunk_id" = Some (VInt (Z.of_nat i))
     ∧ row !! "total_chunks" = Some (VInt (len rows)))
  ∧ (∀ (i : nat) row next, rows !! i = Some row → rows !! S i = Some next →
       row !! "context_after" = next !! "text"
       ∧ next !! "context_before" = row !! "text").
Proof.
  intros rows. subst rows. split.
  - intros i row Hi. rewrite list_lookup_imap in Hi.
    destruct (chunks !! i) as [chunk|]; [|done]. injection Hi as <-.
    split; [apply linked_record_id|].
    rewrite linked_record_total. unfold len. by rewrite length_imap.
  - intros i row next Hi Hnext. rewrite list_lookup_imap in Hi, Hnext.
    destruct (chunks !! i) as [chunk|] eqn:Hc; [|done]. injection Hi as <-.
    destruct (chunks !! S i) as [chunk'|] eqn:Hc'; [|done]. injection Hnext as <-.
    rewrite linked_record_after, linked_record_before, !linked_record_text.
    unfold chunk_after, chunk_before. by rewrite Hc, Hc'.
Qed.

Lemma whole_documents_nil : whole_documents [].
Proof. intros name. split; intros i row; by rewrite filter_nil, lookup_nil. Qed.

Lemma upload_keeps_whole upl w :
  whole_documents (objects w) → whole_documents (objects (upload upl w).2).
Proof.
  intros Hwhole.
  destruct (upload_cases upl w) as [(detail & ->)|(other & ext & _ & _ & ->)]; [done|].
  unfold ingest_outcome. intros name.
  destruct (decide (name = other)) as [->|Hne].
  - destruct (process_doc (file upl) ext other) as [rows|e|] eqn:Hrows; cbn [snd objects].
    + rewrite filter_app, filter_named_dropped, app_nil_l.
      rewrite filter_named_all by (by eapply process_doc_names).
      destruct (process_doc_ok _ _ _ _ Hrows) as (doc_text & chunks & _ & _ & ->).
      apply linked_records_whole.
    + rewrite filter_named_dropped. split; intros i row; by rewrite lookup_nil.
    + rewrite filter_named_dropped. split; intros i row; by rewrite lookup_nil.
  - destruct (process_doc (file upl) ext other) as [rows|e|] eqn:Hrows; cbn [snd objects].
    + rewrite filter_app, filter_named_kept by done.
      rewrite (filter_named_none name other rows), app_nil_r;
        [apply Hwhole|done|by eapply process_doc_names].
    + rewrite filter_named_kept by done. apply Hwhole.
    + rewrite filter_named_kept by done. apply Hwhole.
Qed.

(** A store filled by uploads alone holds whole documents only, whatever
    was uploaded, in whatever order, and whether the uploads succeeded:
    under every name the objects are numbered from 0 in insertion order,
    [total_chunks] is their number, and the context fields of neighbours
    are each other's text.  An upload never leaves a part of a document,
    or two versions of it, behind. *)
Theorem uploads_keep_documents_whole (uploads : list UploadFile) :
  whole_documents (objects (run_uploads uploads {| objects := []; trace := [] |})).
Proof.
  assert (Hall : ∀ w, whole_documents (objects w) →
                   whole_documents (objects (run_uploads uploads w))).
  { induction uploads as [|upl uploads IH]; intros w Hw; [done|].
    apply IH. by apply upload_keeps_whole. }
  apply Hall. apply whole_documents_nil.
Qed.
